(** * Simple-Vosk: the speaker matcher and the result dispatcher

    A shallow embedding of [simpleVosk.py] (class [Speech]): the session
    record built by [__init__], [addFilterWords], the cosine distance
    [__cosineDist], the speaker matcher [__speakerCheck] and the result
    filter and dispatcher [__checkCallback].

    Numbers are IEEE-754 binary64 values, as numpy's [float64] and
    Python's [float] are: Rocq's primitive [float], specified by the
    Standard Library through [Prim2SF] and the [SpecFloat] operations.
    Effects are a trace of events (console prints and invocations of the
    user callback) together with a result that is either a value or a
    raised exception. *)

From Stdlib Require Import List String Ascii Bool Arith ZArith Lia Floats.
Import ListNotations.

Local Open Scope string_scope.
Local Open Scope list_scope.

#[local] Set Warnings "-inexact-float".

(** ** Effects: prints, callback invocations, exceptions *)

(** What the code does to the outside world. [__speakerCheck] prints a
    distance per registry entry when [verbose] is set and the unmatched
    embedding when [printUnknownSigs] is set; [__checkCallback] invokes
    the user callback with [(text, speaker, isFull)]. *)
Inductive Event : Type :=
| PrintDistance (person : string) (dist : float)
| PrintUnknown (spk : list float)
| Callback (text : string) (speaker : option string) (isFull : bool).

(** The only exception the modelled code can raise by itself: [np.dot]
    on one-dimensional arrays of different sizes. *)
Inductive exn : Type :=
| ValueError.

Inductive result (A : Type) : Type :=
| Ok (a : A)
| Raise (e : exn).

Arguments Ok {A} a.
Arguments Raise {A} e.

(** A computation: the events it emitted, in order, and how it ended. *)
Definition M (A : Type) : Type := (list Event * result A)%type.

Definition ret {A} (a : A) : M A := ([], Ok a).

Definition raise {A} (e : exn) : M A := ([], Raise e).

Definition emit (ev : Event) : M unit := ([ev], Ok tt).

Definition bind {A B} (m : M A) (k : A -> M B) : M B :=
  match m with
  | (t, Ok a) => let (t', r) := k a in (t ++ t', r)
  | (t, Raise e) => (t, Raise e)
  end.

Definition when (b : bool) (m : M unit) : M unit :=
  if b then m else ret tt.

Declare Scope vosk_scope.
Delimit Scope vosk_scope with vosk.
Notation "x <- m ;; k" := (bind m (fun x => k))
  (at level 61, m at next level, right associativity) : vosk_scope.
Notation "m ;;; k" := (bind m (fun _ => k))
  (at level 61, right associativity) : vosk_scope.

Definition trace {A} (m : M A) : list Event := fst m.

Definition outcome {A} (m : M A) : result A := snd m.

(** The invocations of the user callback among the events, in order. *)
Fixpoint callbacks (t : list Event) : list (string * option string * bool) :=
  match t with
  | [] => []
  | Callback text speaker isFull :: t' => (text, speaker, isFull) :: callbacks t'
  | _ :: t' => callbacks t'
  end.

(** ** Data model *)

(** The payload [json.loads] yields for a recognizer output: a dict in
    which each of the keys ["text"], ["partial"] and ["spk"] is present or
    not. *)
Record Load : Type := mkLoad {
  load_text : option string;
  load_partial : option string;
  load_spk : option (list float)
}.

(** The recognizer's two kinds of output: [Result()] carries ["text"] and,
    when a speaker model is active, the embedding ["spk"];
    [PartialResult()] carries ["partial"] only. *)
Inductive RecognitionResult : Type :=
| Final (text : string) (embedding : option (list float))
| Partial (text : string).

Definition payload (r : RecognitionResult) : Load :=
  match r with
  | Final text embedding => mkLoad (Some text) None embedding
  | Partial text => mkLoad None (Some text) None
  end.

(** The speaker registry: a Python dict, iterated in insertion order; the
    list of its items. The loop of the matcher reads
    [self.__speakSigs[person]] for each key [person] it iterates over,
    which is the value of that item. *)
Definition Signatures : Type := list (string * list float).

(** The attributes of a [Speech] object (the callback is represented by
    the [Callback] events; the queue and the thread handle are not
    modelled). *)
Record Speech : Type := mkSpeech {
  model : string;
  spkModel : option string;
  deviceID : option Z;
  partial : bool;
  filterText : bool;
  textFilters : list string;
  verbose : bool;
  speakSigs : Signatures;
  maxSpeakDist : float;
  printUnknownSigs : bool;
  running : bool
}.

(** The keyword arguments of [Speech.__init__]. *)
Record InitArgs : Type := mkInitArgs {
  arg_partial : bool;
  arg_model : string;
  arg_speakModel : option string;
  arg_signatures : Signatures;
  arg_maxSpeakThresh : float;
  arg_filterText : bool;
  arg_printUnknownSigs : bool;
  arg_deviceID : option Z;
  arg_verbose : bool
}.

(** The default values in the signature of [__init__]. *)
Definition default_args : InitArgs := {|
  arg_partial := false;
  arg_model := "model";
  arg_speakModel := None;
  arg_signatures := [];
  arg_maxSpeakThresh := 0.54%float;
  arg_filterText := true;
  arg_printUnknownSigs := true;
  arg_deviceID := None;
  arg_verbose := false
|}.

(** [Speech.__init__]. *)
Definition init (a : InitArgs) : Speech := {|
  model := arg_model a;
  spkModel := arg_speakModel a;
  deviceID := arg_deviceID a;
  partial := arg_partial a;
  filterText := arg_filterText a;
  textFilters := ["huh"; "by"; "but"];
  verbose := arg_verbose a;
  speakSigs := arg_signatures a;
  maxSpeakDist := arg_maxSpeakThresh a;
  printUnknownSigs := arg_printUnknownSigs a;
  running := false
|}.

Definition set_textFilters (l : list string) (self : Speech) : Speech := {|
  model := model self;
  spkModel := spkModel self;
  deviceID := deviceID self;
  partial := partial self;
  filterText := filterText self;
  textFilters := l;
  verbose := verbose self;
  speakSigs := speakSigs self;
  maxSpeakDist := maxSpeakDist self;
  printUnknownSigs := printUnknownSigs self;
  running := running self
|}.

Definition set_partial (b : bool) (self : Speech) : Speech := {|
  model := model self;
  spkModel := spkModel self;
  deviceID := deviceID self;
  partial := b;
  filterText := filterText self;
  textFilters := textFilters self;
  verbose := verbose self;
  speakSigs := speakSigs self;
  maxSpeakDist := maxSpeakDist self;
  printUnknownSigs := printUnknownSigs self;
  running := running self
|}.

Definition set_running (b : bool) (self : Speech) : Speech := {|
  model := model self;
  spkModel := spkModel self;
  deviceID := deviceID self;
  partial := partial self;
  filterText := filterText self;
  textFilters := textFilters self;
  verbose := verbose self;
  speakSigs := speakSigs self;
  maxSpeakDist := maxSpeakDist self;
  printUnknownSigs := printUnknownSigs self;
  running := b
|}.


Definition isRunning (self : Speech) : bool := running self.

(** [Speech.addFilterWords]: [self.__textFilters += words]. *)
Definition addFilterWords (self : Speech) (words : list string) : Speech :=
  set_textFilters (textFilters self ++ words) self.

(** ** The cosine distance *)

Section Numeric.
Local Open Scope float_scope.

(** The sum of products accumulated from [acc], over the common prefix.
    numpy leaves the order of the additions to its BLAS routine; the model
    adds from left to right. The statements about the matcher below speak
    of the distances through [cosine] and do not depend on that order, and
    the vectors of the scenarios have at most two non-zero products, for
    which every order gives the same sum. *)
Fixpoint dot_from (acc : float) (x y : list float) : float :=
  match x, y with
  | a :: x', b :: y' => dot_from (acc + a * b) x' y'
  | _, _ => acc
  end.

(** [np.dot] on two one-dimensional arrays: sizes must agree. *)
Definition np_dot (x y : list float) : M float :=
  if Nat.eqb (List.length x) (List.length y) then ret (dot_from 0 x y)
  else raise ValueError.

(** [np.linalg.norm] on a one-dimensional array: [sqrt(x.dot(x))]. *)
Definition np_linalg_norm (x : list float) : float :=
  sqrt (dot_from 0 x x).

(** The value of [1 - dot / norm(x) / norm(y)] once [np.dot] returned. *)
Definition cosine (x y : list float) : float :=
  1 - dot_from 0 x y / np_linalg_norm x / np_linalg_norm y.

(** [Speech.__cosineDist]. *)
Definition cosineDist (x y : list float) : M float :=
  (d <- np_dot x y ;;
   ret (1 - d / np_linalg_norm x / np_linalg_norm y))%vosk.

(** ** The speaker matcher *)

(** The [for person in self.__speakSigs] loop of [__speakerCheck], from
    the state [(minDist, bestFit)]. *)
Fixpoint speakerLoop (verb : bool) (spk : list float) (sigs : Signatures)
    (minDist : float) (bestFit : option string) : M (float * option string) :=
  match sigs with
  | [] => ret (minDist, bestFit)
  | (person, sig) :: rest =>
      (dist <- cosineDist sig spk ;;
       when verb (emit (PrintDistance person dist)) ;;;
       if dist <? minDist
       then speakerLoop verb spk rest dist (Some person)
       else speakerLoop verb spk rest minDist bestFit)%vosk
  end.

(** [Speech.__speakerCheck]. [minDist > maxSpeakDist] is the IEEE
    comparison [maxSpeakDist < minDist]. *)
Definition speakerCheck (self : Speech) (load : Load) : M (option string) :=
  match load_spk load with
  | None => ret None
  | Some spk =>
      (st <- speakerLoop (verbose self) spk (speakSigs self)
                         (maxSpeakDist self * 2) None ;;
       if maxSpeakDist self <? fst st
       then when (printUnknownSigs self) (emit (PrintUnknown spk)) ;;;
            ret None
       else ret (snd st))%vosk
  end.

End Numeric.

(** ** The result filter and dispatcher *)

(** [s in self.__textFilters]: list membership by string equality. *)
Definition inb (s : string) (l : list string) : bool :=
  existsb (String.eqb s) l.

(** [Speech.__checkCallback], on the parsed payload. *)
Definition checkCallback (self : Speech) (load : Load) : M unit :=
  match load_text load with
  | Some s =>
      if Nat.ltb 0 (String.length s) then
        if filterText self && inb s (textFilters self) then ret tt
        else (speaker <- match spkModel self with
                         | Some _ => speakerCheck self load
                         | None => ret None
                         end ;;
              emit (Callback s speaker true))%vosk
      else ret tt
  | None =>
      match load_partial load with
      | Some s =>
          if partial self then
            if Nat.ltb 0 (String.length s) then
              if filterText self && inb s (textFilters self) then ret tt
              else emit (Callback s None false)
            else ret tt
          else ret tt
      | None => ret tt
      end
  end.

(** ** Vocabulary of the statements *)

Section Vocabulary.
Local Open Scope float_scope.

(** A float that is not NaN: the only floats that compare equal to
    themselves. *)
Definition is_number (x : float) : bool := x =? x.

(** The distance of every registry entry to the embedding [spk], in
    registry order. *)
Definition distances (sigs : Signatures) (spk : list float) : list (string * float) :=
  map (fun entry => (fst entry, cosine (snd entry) spk)) sigs.

(** [name] at distance [d] is the first entry of [ds] that attains the
    least distance among the entries whose distance is a number: every
    entry before it is strictly farther (or NaN), no entry after it is
    strictly nearer. *)
Definition first_minimum (ds : list (string * float)) (name : string) (d : float) : Prop :=
  exists before after,
    ds = before ++ (name, d) :: after /\
    is_number d = true /\
    Forall (fun p => is_number (snd p) = true -> (d <? snd p) = true) before /\
    Forall (fun p => (snd p <? d) = false) after.

(** Every distance that is a number exceeds [bound]. *)
Definition all_exceed (ds : list (string * float)) (bound : float) : Prop :=
  Forall (fun p => is_number (snd p) = true -> (bound <? snd p) = true) ds.

(** Every reference of the registry has the size of the embedding. *)
Definition same_size (sigs : Signatures) (spk : list float) : Prop :=
  Forall (fun entry => List.length (snd entry) = List.length spk) sigs.

(** The state [(minDist, bestFit)] the loop of [__speakerCheck] reaches
    from [(m, b)] over the distances [ds]. *)
Fixpoint select (ds : list (string * float)) (m : float) (b : option string)
    : float * option string :=
  match ds with
  | [] => (m, b)
  | (person, dist) :: rest =>
      if dist <? m then select rest dist (Some person) else select rest m b
  end.

(** The loop invariant, after the entries [seen], with [m0] the initial
    [minDist]: either nothing was selected, [minDist] is still [m0] and no
    distance seen is below it; or [bestFit] is the first minimum of the
    entries seen, at distance [minDist], below [m0]. *)
Definition loop_inv (m0 : float) (seen : list (string * float))
    (m : float) (b : option string) : Prop :=
  match b with
  | None => m = m0 /\ Forall (fun p => (snd p <? m0) = false) seen
  | Some name => first_minimum seen name m /\ (m <? m0) = true
  end.

(** The speaker resolution of [__checkCallback] for a final result
    returns [sp]: none without a speaker model, what the matcher returns
    with one. *)
Definition speaker_resolves (self : Speech) (load : Load) (sp : option string) : Prop :=
  match spkModel self with
  | None => sp = None
  | Some _ => outcome (speakerCheck self load) = Ok sp
  end.

(** The user callback is invoked during the computation. *)
Definition dispatched {A} (m : M A) : Prop := callbacks (trace m) <> [].

(** The texts the user callback was invoked with. *)
Definition callback_texts {A} (m : M A) : list string :=
  map (fun c => fst (fst c)) (callbacks (trace m)).

(** A vector of zeros (of either sign). *)
Definition all_zero (v : list float) : Prop :=
  Forall (fun x => is_zero x = true) v.

End Vocabulary.

(** ** Scenarios *)

Section Scenarios.
Local Open Scope float_scope.

(** A session with speaker recognition: [Speech(speakModel=..., signatures=sigs,
    maxSpeakThresh=thresh)], the other arguments at their defaults. *)
Definition speaker_session (sigs : Signatures) (thresh : float) : Speech :=
  init {|
    arg_partial := arg_partial default_args;
    arg_model := arg_model default_args;
    arg_speakModel := Some "model-spk";
    arg_signatures := sigs;
    arg_maxSpeakThresh := thresh;
    arg_filterText := arg_filterText default_args;
    arg_printUnknownSigs := arg_printUnknownSigs default_args;
    arg_deviceID := arg_deviceID default_args;
    arg_verbose := arg_verbose default_args
  |}.

(** [Speech(partial=p, filterText=f)], the other arguments at their
    defaults. *)
Definition text_session (p f : bool) : Speech :=
  init {|
    arg_partial := p;
    arg_model := arg_model default_args;
    arg_speakModel := arg_speakModel default_args;
    arg_signatures := arg_signatures default_args;
    arg_maxSpeakThresh := arg_maxSpeakThresh default_args;
    arg_filterText := f;
    arg_printUnknownSigs := arg_printUnknownSigs default_args;
    arg_deviceID := arg_deviceID default_args;
    arg_verbose := arg_verbose default_args
  |}.

(** The registry of the specification's scenario. *)
Definition alice_bob : Signatures :=
  [("Alice", [1; 0; 0]); ("Bob", [0; 1; 0])].

Definition alice : Signatures := [("Alice", [1; 0; 0])].

(** The same configuration with the two diagnostic flags set as given. *)
Definition chatty_session (sigs : Signatures) (thresh : float) (verb unknown : bool)
    : Speech :=
  init {|
    arg_partial := true;
    arg_model := arg_model default_args;
    arg_speakModel := Some "model-spk";
    arg_signatures := sigs;
    arg_maxSpeakThresh := thresh;
    arg_filterText := false;
    arg_printUnknownSigs := unknown;
    arg_deviceID := Some 1%Z;
    arg_verbose := verb
  |}.

End Scenarios.

(** ** The example callback *)

(** The line feed that opens every line [simpleCallback] prints. *)
Definition LF : string := String (Ascii.ascii_of_nat 10) EmptyString.

(** [simpleCallback]: the text it hands to [print]. *)
Definition simpleCallback (text : string) (speaker : option string) (isFull : bool)
    : string :=
  let state := if isFull then "Full" else "Partial" in
  match speaker with
  | None => LF ++ "[" ++ state ++ "] " ++ text
  | Some name => LF ++ "[" ++ state ++ "] " ++ name ++ ": " ++ text
  end.

(** ** The audio queue, the capture callback and the recognition loop *)

(** A block of audio, [bytes(indata)]. *)
Definition Frame : Type := list Byte.byte.

(** [queue.Queue()]: unbounded, first in first out. [put] adds at the
    back; [get] takes from the front and blocks on an empty queue, which
    [None] stands for. *)
Definition Queue : Type := list Frame.

Definition put (q : Queue) (data : Frame) : Queue := q ++ [data].

Definition get (q : Queue) : option (Frame * Queue) :=
  match q with
  | [] => None
  | data :: q' => Some (data, q')
  end.

(** [sounddevice.CallbackFlags]: a bit mask, true when a bit is set. *)
Definition CallbackFlags : Type := N.

Definition flagged (status : CallbackFlags) : bool := negb (N.eqb status 0).

(** [Speech.__voskCallback]: what it prints to [sys.stderr] and the queue
    it leaves. The arguments [frames] and [time] are not used. *)
Definition voskCallback (self : Speech) (q : Queue) (indata : Frame)
    (status : CallbackFlags) : list CallbackFlags * Queue :=
  (if flagged status && verbose self then [status] else [], put q indata).

(** A run of the capture thread: [__voskCallback] once per audio block,
    in order. The prints accumulate. *)
Fixpoint capture (self : Speech) (q : Queue)
    (blocks : list (Frame * CallbackFlags)) : list CallbackFlags * Queue :=
  match blocks with
  | [] => ([], q)
  | (indata, status) :: rest =>
      let (printed, q1) := voskCallback self q indata status in
      let (printed', q2) := capture self q1 rest in
      (printed ++ printed', q2)
  end.

(** The interface of [vosk.KaldiRecognizer] the loop uses, over a state
    of the recognizer: [AcceptWaveform] tells whether an utterance ended;
    [Result] and [PartialResult] give the payload ([json.loads] of the
    string the recognizer returns). *)
Record KaldiRecognizer : Type := mkRecognizer {
  rec_state : Type;
  AcceptWaveform : rec_state -> Frame -> rec_state * bool;
  Result : rec_state -> rec_state * Load;
  PartialResult : rec_state -> rec_state * Load
}.

(** The body of the [while self.__running] loop of [__runVosk], once
    [self.__q.get()] returned [data]. *)
Definition loopBody (self : Speech) (R : KaldiRecognizer) (st : rec_state R)
    (data : Frame) : M (rec_state R) :=
  let (st1, ended) := AcceptWaveform R st data in
  if ended
  then let (st2, load) := Result R st1 in
       (checkCallback self load ;;; ret st2)%vosk
  else let (st2, load) := PartialResult R st1 in
       (checkCallback self load ;;; ret st2)%vosk.

(** How a run of the loop over the frames of the queue ends, when it does
    not raise: the flag was found cleared, or the queue is empty and the
    loop is blocked in [get]. *)
Inductive LoopEnd : Type :=
| Exited
| Waiting.

(** The processing loop of [__runVosk] over the frames [q] of the queue,
    from the recognizer state [st]: it returns how it ended, the state of
    the recognizer and the frames left in the queue. The flag is the
    session's; nothing changes it during the run. *)
Fixpoint runLoop (self : Speech) (R : KaldiRecognizer) (st : rec_state R)
    (q : Queue) : M (LoopEnd * rec_state R * Queue) :=
  if running self then
    match q with
    | [] => ret (Waiting, st, [])
    | data :: q' =>
        (st' <- loopBody self R st data ;; runLoop self R st' q')%vosk
    end
  else ret (Exited, st, q).


(** The number of frames of [q] at which the recognizer reports the end
    of an utterance, along the run from [st]. *)
Fixpoint utterances (R : KaldiRecognizer) (st : rec_state R) (q : Queue) : nat :=
  match q with
  | [] => 0
  | data :: q' =>
      let (st1, ended) := AcceptWaveform R st data in
      if ended then S (utterances R (fst (Result R st1)) q')
      else utterances R (fst (PartialResult R st1)) q'
  end.

(** The distances the matcher printed, in order. *)
Fixpoint distance_prints (t : list Event) : list (string * float) :=
  match t with
  | [] => []
  | PrintDistance person dist :: t' => (person, dist) :: distance_prints t'
  | _ :: t' => distance_prints t'
  end.

(** A recognizer for the scenarios: an empty block ends an utterance,
    whose text is "hello"; the state counts the blocks. *)
Definition toy_recognizer : KaldiRecognizer := {|
  rec_state := nat;
  AcceptWaveform := fun n data => (S n, Nat.eqb (List.length data) 0);
  Result := fun n => (n, payload (Final "hello" None));
  PartialResult := fun n => (n, payload (Partial "hel"))
|}.

(** A recognizer that attaches an embedding of size 2 to its results. *)
Definition toy_speaker_recognizer : KaldiRecognizer := {|
  rec_state := nat;
  AcceptWaveform := fun n data => (S n, Nat.eqb (List.length data) 0);
  Result := fun n => (n, payload (Final "hello" (Some [1; 0]%float)));
  PartialResult := fun n => (n, payload (Partial "hel"))
|}.

Definition block : Frame := [Byte.x01; Byte.x02].

(** ** The order of binary64 values *)

(** A rank for the values that are numbers: [SFcompare] is the
    lexicographic comparison of ranks. *)
Definition rank (x : spec_float) : option (Z * Z * Z) :=
  match x with
  | S754_nan => None
  | S754_infinity true => Some (-2, 0, 0)%Z
  | S754_infinity false => Some (2, 0, 0)%Z
  | S754_zero _ => Some (0, 0, 0)%Z
  | S754_finite true m e => Some (-1, - e, Zneg m)%Z
  | S754_finite false m e => Some (1, e, Zpos m)%Z
  end.

Definition lexcmp (a b : Z * Z * Z) : comparison :=
  let '(a1, a2, a3) := a in
  let '(b1, b2, b3) := b in
  match (a1 ?= b1)%Z with
  | Eq => match (a2 ?= b2)%Z with Eq => (a3 ?= b3)%Z | c => c end
  | c => c
  end.

(** A zero or a NaN: what a sum of products with zeros can be. *)
Definition zero_or_nan (x : spec_float) : bool :=
  match x with
  | S754_zero _ | S754_nan => true
  | _ => false
  end.

Module IEEE.
Local Open Scope float_scope.

Lemma SFcompare_rank x y :
  SFcompare x y =
  match rank x, rank y with
  | Some a, Some b => Some (lexcmp a b)
  | _, _ => None
  end.
Proof.
  destruct x as [sx|sx| |sx mx ex], y as [sy|sy| |sy my ey]; simpl;
    try destruct sx; try destruct sy; simpl; try reflexivity.
  rewrite Z.compare_opp, (Z.compare_antisym ex ey).
  destruct (ex ?= ey)%Z; reflexivity.
Qed.

Lemma lexcmp_Lt a b :
  lexcmp a b = Lt <->
  let '(a1, a2, a3) := a in
  let '(b1, b2, b3) := b in
  (a1 < b1 \/ (a1 = b1 /\ (a2 < b2 \/ (a2 = b2 /\ a3 < b3))))%Z.
Proof.
  destruct a as [[a1 a2] a3], b as [[b1 b2] b3]; simpl.
  destruct (Z.compare_spec a1 b1), (Z.compare_spec a2 b2), (Z.compare_spec a3 b3);
    split; intros; try discriminate; try reflexivity; lia.
Qed.

Lemma lexcmp_refl a : lexcmp a a = Eq.
Proof. destruct a as [[a1 a2] a3]; simpl. now rewrite !Z.compare_refl. Qed.

Lemma ltb_rank x y :
  (x <? y) = true <->
  exists a b, rank (Prim2SF x) = Some a /\ rank (Prim2SF y) = Some b /\ lexcmp a b = Lt.
Proof.
  rewrite ltb_spec. unfold SFltb. rewrite SFcompare_rank.
  destruct (rank (Prim2SF x)) as [a|], (rank (Prim2SF y)) as [b|];
    try (split; [discriminate | intros (a' & b' & Ha & Hb & H); discriminate]).
  destruct (lexcmp a b) eqn:E; split; try discriminate; eauto;
    intros (a' & b' & Ha & Hb & H); congruence.
Qed.

Lemma is_number_rank x :
  is_number x = true <-> exists a, rank (Prim2SF x) = Some a.
Proof.
  unfold is_number. rewrite eqb_spec. unfold SFeqb. rewrite SFcompare_rank.
  destruct (rank (Prim2SF x)) as [a|].
  - rewrite lexcmp_refl. split; eauto.
  - split; [discriminate | intros [a Ha]; discriminate].
Qed.

Lemma ltb_trans x y z :
  (x <? y) = true -> (y <? z) = true -> (x <? z) = true.
Proof.
  rewrite !ltb_rank. intros (a & b & Ha & Hb & H1) (b' & c & Hb' & Hc & H2).
  assert (b' = b) by congruence; subst b'.
  exists a, c. repeat split; auto.
  apply lexcmp_Lt in H1, H2. apply lexcmp_Lt.
  destruct a as [[a1 a2] a3], b as [[b1 b2] b3], c as [[c1 c2] c3]. lia.
Qed.

Lemma ltb_irrefl x : (x <? x) = false.
Proof.
  destruct (x <? x) eqn:E; auto.
  apply ltb_rank in E. destruct E as (a & b & Ha & Hb & H).
  assert (a = b) by congruence; subst a.
  rewrite lexcmp_refl in H. discriminate.
Qed.

(** Below [z], a number [y] is either above [x] or below [z]. *)
Lemma ltb_cotrans x y z :
  (x <? z) = true -> is_number y = true -> (x <? y) = true \/ (y <? z) = true.
Proof.
  rewrite !ltb_rank, is_number_rank. intros (a & c & Ha & Hc & H) [b Hb].
  apply lexcmp_Lt in H.
  assert (D : lexcmp a b = Lt \/ lexcmp b c = Lt).
  { rewrite !lexcmp_Lt.
    destruct a as [[a1 a2] a3], b as [[b1 b2] b3], c as [[c1 c2] c3]. lia. }
  destruct D; [left | right]; eauto 6.
Qed.

Lemma ltb_is_number x y :
  (x <? y) = true -> is_number x = true /\ is_number y = true.
Proof.
  rewrite ltb_rank, !is_number_rank. intros (a & b & Ha & Hb & _). eauto.
Qed.

Lemma ltb_asym x y : (x <? y) = true -> (y <? x) = false.
Proof.
  intros H. destruct (y <? x) eqn:E; auto.
  pose proof (ltb_trans _ _ _ H E) as C. rewrite ltb_irrefl in C. discriminate.
Qed.

(** Among numbers, "not above" is "at most". *)
Lemma not_ltb_leb x y :
  is_number x = true -> is_number y = true -> (y <? x) = false -> (x <=? y) = true.
Proof.
  rewrite !is_number_rank. intros [a Ha] [b Hb].
  rewrite ltb_spec, leb_spec. unfold SFltb, SFleb.
  rewrite !SFcompare_rank, Ha, Hb.
  destruct a as [[a1 a2] a3], b as [[b1 b2] b3]; simpl.
  destruct (Z.compare_spec a1 b1), (Z.compare_spec b1 a1); try lia;
    destruct (Z.compare_spec a2 b2), (Z.compare_spec b2 a2); try lia;
    destruct (Z.compare_spec a3 b3), (Z.compare_spec b3 a3); try lia;
    try reflexivity; try discriminate.
Qed.

Lemma leb_not_ltb x y : (x <=? y) = true -> (y <? x) = false.
Proof.
  rewrite ltb_spec, leb_spec. unfold SFltb, SFleb. rewrite !SFcompare_rank.
  destruct (rank (Prim2SF x)) as [[[a1 a2] a3]|], (rank (Prim2SF y)) as [[[b1 b2] b3]|];
    try discriminate; try reflexivity; simpl.
  destruct (Z.compare_spec a1 b1), (Z.compare_spec b1 a1); try lia;
    destruct (Z.compare_spec a2 b2), (Z.compare_spec b2 a2); try lia;
    destruct (Z.compare_spec a3 b3), (Z.compare_spec b3 a3); try lia;
    try reflexivity; try discriminate.
Qed.

Lemma nan_ltb x y : Prim2SF x = S754_nan -> (x <? y) = false.
Proof. intros H. rewrite ltb_spec, H. reflexivity. Qed.

End IEEE.

(** ** The monad *)

Lemma outcome_bind {A B} (m : M A) (k : A -> M B) :
  outcome (bind m k) =
  match outcome m with
  | Ok a => outcome (k a)
  | Raise e => Raise e
  end.
Proof.
  destruct m as [t [a|e]]; simpl; [destruct (k a) |]; reflexivity.
Qed.

Lemma trace_bind {A B} (m : M A) (k : A -> M B) :
  trace (bind m k) =
  match outcome m with
  | Ok a => trace m ++ trace (k a)
  | Raise e => trace m
  end.
Proof.
  destruct m as [t [a|e]]; simpl; [destruct (k a) |]; reflexivity.
Qed.

(** A guarded print returns normally. *)
Lemma outcome_when_emit b ev : outcome (when b (emit ev)) = Ok tt.
Proof. destruct b; reflexivity. Qed.

Lemma callbacks_when_print b person dist :
  callbacks (trace (when b (emit (PrintDistance person dist)))) = [].
Proof. destruct b; reflexivity. Qed.

Lemma callbacks_app t1 t2 : callbacks (t1 ++ t2) = callbacks t1 ++ callbacks t2.
Proof.
  induction t1 as [|ev t1 IH]; simpl; [reflexivity|].
  destruct ev; simpl; now rewrite IH.
Qed.

Lemma inb_In s l : inb s l = true <-> In s l.
Proof.
  unfold inb. rewrite existsb_exists. split.
  - intros (x & Hx & E). apply String.eqb_eq in E. now subst.
  - intros H. exists s. split; [assumption | apply String.eqb_refl].
Qed.

(** ** The loop of the matcher *)

Section Matcher.
Local Open Scope float_scope.

Lemma outcome_cosineDist x y :
  outcome (cosineDist x y) =
  if Nat.eqb (List.length x) (List.length y) then Ok (cosine x y) else Raise ValueError.
Proof.
  unfold cosineDist, np_dot, cosine. destruct (Nat.eqb _ _); reflexivity.
Qed.

(** When sizes agree the loop does not raise, and its final state is
    the selection over the distances. *)
Lemma outcome_speakerLoop verb spk sigs :
  same_size sigs spk ->
  forall m b,
    outcome (speakerLoop verb spk sigs m b) = Ok (select (distances sigs spk) m b).
Proof.
  induction 1 as [|[person sig] rest Hlen _ IH]; intros m b; [reflexivity|].
  simpl in Hlen |- *.
  rewrite outcome_bind, outcome_cosineDist, Hlen, Nat.eqb_refl.
  rewrite outcome_bind, outcome_when_emit.
  destruct (cosine sig spk <? m); apply IH.
Qed.

(** The outcome of the loop does not depend on [verbose]. *)
Lemma outcome_speakerLoop_verbose v v' spk sigs :
  forall m b,
    outcome (speakerLoop v spk sigs m b) = outcome (speakerLoop v' spk sigs m b).
Proof.
  induction sigs as [|[person sig] rest IH]; intros m b; [reflexivity|].
  simpl. rewrite !outcome_bind, outcome_cosineDist.
  destruct (Nat.eqb _ _); [|reflexivity].
  rewrite !outcome_bind, !outcome_when_emit.
  destruct (cosine sig spk <? m); apply IH.
Qed.

Lemma loop_inv_step m0 seen m b person dist :
  loop_inv m0 seen m b ->
  loop_inv m0 (seen ++ [(person, dist)])
    (if dist <? m then dist else m) (if dist <? m then Some person else b).
Proof.
  intros Hinv. destruct (dist <? m) eqn:Hlt.
  - (* the entry becomes the best fit *)
    destruct (IEEE.ltb_is_number _ _ Hlt) as [Hd _].
    assert (Hseen : Forall (fun p => is_number (snd p) = true -> (dist <? snd p) = true) seen).
    { destruct b as [name|]; simpl in Hinv.
      - destruct Hinv as [(before & after & -> & Hm & Hbefore & Hafter) _].
        apply Forall_app; split; [|constructor].
        + eapply Forall_impl; [|exact Hbefore]. intros p Hp Hnum.
          eapply IEEE.ltb_trans; eauto.
        + intros _. exact Hlt.
        + eapply Forall_impl; [|exact Hafter]. intros p Hp Hnum.
          destruct (IEEE.ltb_cotrans _ (snd p) _ Hlt Hnum) as [H|H]; [exact H|congruence].
      - destruct Hinv as [-> Hall].
        eapply Forall_impl; [|exact Hall]. intros p Hp Hnum.
        destruct (IEEE.ltb_cotrans _ (snd p) _ Hlt Hnum) as [H|H]; [exact H|congruence]. }
    split.
    + exists seen, []. repeat split; auto.
    + destruct b as [name|]; simpl in Hinv.
      * eapply IEEE.ltb_trans; [exact Hlt | apply Hinv].
      * destruct Hinv as [-> _]. exact Hlt.
  - (* the state is kept *)
    destruct b as [name|]; simpl in Hinv |- *.
    + destruct Hinv as [(before & after & -> & Hm & Hbefore & Hafter) Hm0].
      split; [|exact Hm0].
      exists before, (after ++ [(person, dist)]). repeat split; auto.
      * now rewrite <- app_assoc.
      * apply Forall_app; split; [exact Hafter | constructor; [exact Hlt | constructor]].
    + destruct Hinv as [-> Hall]. split; [reflexivity|].
      apply Forall_app; split; [exact Hall | constructor; [exact Hlt | constructor]].
Qed.

Lemma loop_inv_select m0 ds :
  forall seen m b,
    loop_inv m0 seen m b ->
    loop_inv m0 (seen ++ ds) (fst (select ds m b)) (snd (select ds m b)).
Proof.
  induction ds as [|[person dist] rest IH]; intros seen m b Hinv.
  - simpl. now rewrite app_nil_r.
  - simpl. apply (loop_inv_step _ _ _ _ person dist) in Hinv.
    replace (seen ++ (person, dist) :: rest) with ((seen ++ [(person, dist)]) ++ rest)
      by (now rewrite <- app_assoc).
    destruct (dist <? m); apply IH; exact Hinv.
Qed.

(** The first minimum of a list of distances is unique. *)
Lemma first_minimum_unique ds n1 d1 n2 d2 :
  first_minimum ds n1 d1 -> first_minimum ds n2 d2 -> n1 = n2 /\ d1 = d2.
Proof.
  intros (b1 & a1 & E1 & N1 & B1 & A1) (b2 & a2 & E2 & N2 & B2 & A2).
  rewrite E1 in E2. apply app_eq_app in E2.
  destruct E2 as (l & [[Eb E] | [Eb E]]); destruct l as [|y l]; simpl in E.
  - injection E as En Ed _. auto.
  - (* the second split is strictly before the first *)
    exfalso. injection E as Ey Ea. subst.
    apply Forall_app in B1. destruct B1 as [_ B1].
    inversion B1 as [|? ? Hlt _]; subst. simpl in Hlt. specialize (Hlt N2).
    apply Forall_app in A2. destruct A2 as [_ A2].
    inversion A2 as [|? ? Hge _]; subst. simpl in Hge. congruence.
  - injection E as En Ed _. auto.
  - (* the first split is strictly before the second *)
    exfalso. injection E as Ey Ea. subst.
    apply Forall_app in B2. destruct B2 as [_ B2].
    inversion B2 as [|? ? Hlt _]; subst. simpl in Hlt. specialize (Hlt N1).
    apply Forall_app in A1. destruct A1 as [_ A1].
    inversion A1 as [|? ? Hge _]; subst. simpl in Hge. congruence.
Qed.

(** A first minimum within the bound excludes that all distances exceed
    it. *)
Lemma first_minimum_within ds name d bound :
  first_minimum ds name d -> (d <=? bound) = true -> all_exceed ds bound -> False.
Proof.
  intros (before & after & -> & Hd & _ & _) Hle Hall.
  apply Forall_app in Hall. destruct Hall as [_ Hall].
  inversion Hall as [|? ? Hlt _]; subst. simpl in Hlt. specialize (Hlt Hd).
  apply IEEE.leb_not_ltb in Hle. congruence.
Qed.

Lemma loop_inv_init m0 : loop_inv m0 [] m0 None.
Proof. split; [reflexivity | constructor]. Qed.

End Matcher.

(** ** Zeros and NaN *)

Module Zeros.
Local Open Scope float_scope.

Lemma Prim2SF_zero : Prim2SF 0 = S754_zero false.
Proof. reflexivity. Qed.

Lemma is_zero_spec x : is_zero x = true -> exists s, Prim2SF x = S754_zero s.
Proof.
  unfold is_zero. rewrite eqb_spec. change (Prim2SF zero) with (S754_zero false).
  destruct (Prim2SF x) as [s|s| |s m e]; simpl; try discriminate; eauto;
    destruct s; discriminate.
Qed.

Lemma dot_zero_r x :
  forall y acc,
    all_zero y ->
    zero_or_nan (Prim2SF acc) = true ->
    zero_or_nan (Prim2SF (dot_from acc x y)) = true.
Proof.
  induction x as [|a x IH]; intros [|b y] acc Hy Hacc; simpl; auto.
  inversion Hy as [|? ? Hb Hy']; subst. apply IH; [exact Hy'|].
  rewrite add_spec, mul_spec. destruct (is_zero_spec _ Hb) as [s ->].
  destruct (Prim2SF acc) as [sa|sa| |sa ma ea]; try discriminate;
    destruct (Prim2SF a) as [sx|sx| |sx mx ex]; simpl;
    try reflexivity; destruct sa, sx, s; reflexivity.
Qed.

Lemma dot_self_zero e :
  forall acc,
    all_zero e ->
    Prim2SF acc = S754_zero false ->
    Prim2SF (dot_from acc e e) = S754_zero false.
Proof.
  induction e as [|a e IH]; intros acc He Hacc; simpl; auto.
  inversion He as [|? ? Ha He']; subst. apply IH; [exact He'|].
  rewrite add_spec, mul_spec, Hacc. destruct (is_zero_spec _ Ha) as [s ->].
  destruct s; reflexivity.
Qed.

Lemma norm_zero e : all_zero e -> Prim2SF (np_linalg_norm e) = S754_zero false.
Proof.
  intros He. unfold np_linalg_norm.
  rewrite sqrt_spec, (dot_self_zero e 0 He Prim2SF_zero). reflexivity.
Qed.

(** The distance to a vector of zeros is NaN, whatever the reference. *)
Lemma cosine_zero_nan x e : all_zero e -> Prim2SF (cosine x e) = S754_nan.
Proof.
  intros He. unfold cosine.
  rewrite sub_spec, div_spec, div_spec, (norm_zero e He).
  pose proof (dot_zero_r x e 0 He eq_refl) as Hd.
  destruct (Prim2SF (dot_from 0 x e)) as [sd|sd| |sd md ed]; try discriminate;
    destruct (Prim2SF (np_linalg_norm x)) as [sn|sn| |sn mn en]; simpl;
    destruct (Prim2SF 1); reflexivity.
Qed.

Lemma select_nan ds :
  forall m b,
    Forall (fun p => Prim2SF (snd p) = S754_nan) ds ->
    select ds m b = (m, b).
Proof.
  induction ds as [|[person dist] rest IH]; intros m b H; [reflexivity|].
  inversion H as [|? ? Hd Hrest]; subst. simpl in Hd |- *.
  rewrite (IEEE.nan_ltb dist m Hd). apply IH, Hrest.
Qed.

Lemma distances_zero_nan sigs e :
  all_zero e -> Forall (fun p => Prim2SF (snd p) = S754_nan) (distances sigs e).
Proof.
  intros He. unfold distances. apply Forall_map, Forall_forall.
  intros entry _. simpl. apply cosine_zero_nan, He.
Qed.

End Zeros.

(** ** The speaker matcher *)

Section SpeakerCheck.
Local Open Scope float_scope.

Lemma outcome_speakerCheck self load spk :
  load_spk load = Some spk ->
  outcome (speakerCheck self load) =
  match outcome (speakerLoop (verbose self) spk (speakSigs self)
                             (maxSpeakDist self * 2) None) with
  | Ok st => if maxSpeakDist self <? fst st then Ok None else Ok (snd st)
  | Raise e => Raise e
  end.
Proof.
  intros Hspk. unfold speakerCheck. rewrite Hspk, outcome_bind.
  destruct (outcome (speakerLoop _ _ _ _ _)) as [st|e]; [|reflexivity].
  destruct (maxSpeakDist self <? fst st); [|reflexivity].
  rewrite outcome_bind, outcome_when_emit. reflexivity.
Qed.

(** The loop returns only when every reference has the embedding's size. *)
Lemma speakerLoop_returns verb spk sigs :
  forall m b st,
    outcome (speakerLoop verb spk sigs m b) = Ok st -> same_size sigs spk.
Proof.
  induction sigs as [|[person sig] rest IH]; intros m b st H; [constructor|].
  simpl in H. rewrite outcome_bind, outcome_cosineDist in H.
  destruct (Nat.eqb (List.length sig) (List.length spk)) eqn:E; [|discriminate].
  apply Nat.eqb_eq in E. rewrite outcome_bind, outcome_when_emit in H.
  constructor; [exact E|].
  destruct (cosine sig spk <? m); eapply IH; exact H.
Qed.

(** What the matcher returns when sizes agree, for any threshold. *)
Lemma speakerCheck_selection self load spk :
  load_spk load = Some spk ->
  same_size (speakSigs self) spk ->
  exists m b,
    select (distances (speakSigs self) spk) (maxSpeakDist self * 2) None = (m, b) /\
    loop_inv (maxSpeakDist self * 2) (distances (speakSigs self) spk) m b /\
    outcome (speakerCheck self load) =
    Ok (if maxSpeakDist self <? m then None else b).
Proof.
  intros Hspk Hsize.
  pose proof (loop_inv_select (maxSpeakDist self * 2) (distances (speakSigs self) spk)
                [] _ _ (loop_inv_init _)) as Hinv.
  simpl in Hinv.
  destruct (select (distances (speakSigs self) spk) (maxSpeakDist self * 2) None)
    as [m b] eqn:Hsel.
  exists m, b. repeat split; [exact Hinv|].
  rewrite (outcome_speakerCheck _ _ _ Hspk), (outcome_speakerLoop _ _ _ Hsize), Hsel.
  simpl. destruct (maxSpeakDist self <? m); reflexivity.
Qed.

(** What the matcher returns for a positive threshold when sizes agree. *)
Lemma speakerCheck_result self load spk :
  load_spk load = Some spk ->
  (maxSpeakDist self <? maxSpeakDist self * 2) = true ->
  same_size (speakSigs self) spk ->
  exists r,
    outcome (speakerCheck self load) = Ok r /\
    match r with
    | Some name =>
        exists d, first_minimum (distances (speakSigs self) spk) name d /\
                  (d <=? maxSpeakDist self) = true
    | None => all_exceed (distances (speakSigs self) spk) (maxSpeakDist self)
    end.
Proof.
  intros Hspk Hpos Hsize.
  destruct (speakerCheck_selection self load spk Hspk Hsize) as (m & b & _ & Hinv & Hout).
  destruct (IEEE.ltb_is_number _ _ Hpos) as [Hmax _].
  rewrite Hout. eexists; split; [reflexivity|].
  destruct (maxSpeakDist self <? m) eqn:Hexceeds.
  - (* the least distance exceeds the threshold *)
    unfold all_exceed. destruct b as [name|]; simpl in Hinv.
    + destruct Hinv as [(before & after & -> & Hm & Hbefore & Hafter) _].
      apply Forall_app; split; [|constructor].
      * eapply Forall_impl; [|exact Hbefore]. intros p Hp Hnum.
        eapply IEEE.ltb_trans; eauto.
      * intros _. exact Hexceeds.
      * eapply Forall_impl; [|exact Hafter]. intros p Hp Hnum.
        destruct (IEEE.ltb_cotrans _ (snd p) _ Hexceeds Hnum) as [H|H];
          [exact H | congruence].
    + destruct Hinv as [-> Hall].
      eapply Forall_impl; [|exact Hall]. intros p Hp Hnum.
      destruct (IEEE.ltb_cotrans _ (snd p) _ Hexceeds Hnum) as [H|H];
        [exact H | congruence].
  - (* the best fit is within the threshold *)
    destruct b as [name|]; simpl in Hinv.
    + destruct Hinv as [Hmin _]. exists m. split; [exact Hmin|].
      destruct Hmin as (_ & _ & _ & Hm & _).
      apply IEEE.not_ltb_leb; assumption.
    + destruct Hinv as [-> _]. congruence.
Qed.

(** C1 (as amended). For a threshold strictly below its double (a
    positive threshold) and an embedding of the size of every registered
    reference, the matcher returns without raising; it returns a name
    exactly when that name is the first registry entry attaining the least
    cosine distance (NaN distances are skipped) and that distance is at
    most the threshold; it returns none exactly when every distance that
    is a number exceeds the threshold. *)
Theorem speakerCheck_first_minimum self load spk :
  load_spk load = Some spk ->
  (maxSpeakDist self <? maxSpeakDist self * 2) = true ->
  same_size (speakSigs self) spk ->
  exists r,
    outcome (speakerCheck self load) = Ok r /\
    (forall name,
        r = Some name <->
        exists d, first_minimum (distances (speakSigs self) spk) name d /\
                  (d <=? maxSpeakDist self) = true) /\
    (r = None <-> all_exceed (distances (speakSigs self) spk) (maxSpeakDist self)).
Proof.
  intros Hspk Hpos Hsize.
  destruct (speakerCheck_result self load spk Hspk Hpos Hsize) as (r & Hout & Hr).
  exists r. split; [exact Hout|]. split.
  - intros name. split.
    + intros ->. exact Hr.
    + intros (d & Hmin & Hle). destruct r as [name'|].
      * destruct Hr as (d' & Hmin' & _).
        destruct (first_minimum_unique _ _ _ _ _ Hmin Hmin') as [-> _]. reflexivity.
      * exfalso. eapply first_minimum_within; eauto.
  - split.
    + intros ->. exact Hr.
    + intros Hall. destruct r as [name|]; [|reflexivity].
      destruct Hr as (d & Hmin & Hle). exfalso. eapply first_minimum_within; eauto.
Qed.

Lemma speakerCheck_first_minimum_witness :
  exists r,
    outcome (speakerCheck (speaker_session alice_bob 0.1)
                          (payload (Final "hello" (Some [0.99; 0.01; 0])))) = Ok r /\
    (forall name,
        r = Some name <->
        exists d, first_minimum (distances alice_bob [0.99; 0.01; 0]) name d /\
                  (d <=? 0.1) = true) /\
    (r = None <-> all_exceed (distances alice_bob [0.99; 0.01; 0]) 0.1).
Proof.
  apply (speakerCheck_first_minimum (speaker_session alice_bob 0.1)
           (payload (Final "hello" (Some [0.99; 0.01; 0]))) [0.99; 0.01; 0]).
  - reflexivity.
  - vm_compute. reflexivity.
  - repeat constructor.
Defined.

(** The scenario of the specification: the query matches "Alice". *)
Example scenario_alice :
  outcome (speakerCheck (speaker_session alice_bob 0.1)
                        (payload (Final "hello" (Some [0.99; 0.01; 0]))))
  = Ok (Some "Alice").
Proof. vm_compute. reflexivity. Qed.

(** C1, counterexample. With threshold 0 the entry "Bob" is at distance
    exactly 0, which does not exceed the threshold, and the matcher
    returns none; with an embedding of another size than the references
    the matcher returns neither a name nor none: it raises. *)
Lemma speakerCheck_first_minimum_counterexample :
  (outcome (cosineDist [0; 1; 0] [0; 1; 0]) = Ok 0 /\
   (0 <? 0) = false /\
   outcome (speakerCheck (speaker_session alice_bob 0)
                         (payload (Final "hello" (Some [0; 1; 0])))) = Ok None) /\
  outcome (speakerCheck (speaker_session alice_bob 0.1)
                        (payload (Final "hello" (Some [0; 1])))) = Raise ValueError.
Proof. vm_compute. split; [split; [|split] |]; reflexivity. Qed.

(** C2, at the failing input: threshold 0, the registry holds exactly the
    query embedding (distance exactly 0), and the matcher returns none
    instead of "Alice". *)
Theorem threshold_zero_exact_match_rejected :
  cosineDist [1; 0; 0] [1; 0; 0] = ([], Ok 0) /\
  speakerCheck (speaker_session alice 0) (payload (Final "hello" (Some [1; 0; 0])))
  = ([], Ok None).
Proof. vm_compute. split; reflexivity. Qed.

(** More generally, a name the matcher returns is at a distance strictly
    below twice the threshold: with threshold 0 only a negative distance
    is ever accepted. *)
Lemma speakerCheck_below_double self load spk name :
  load_spk load = Some spk ->
  outcome (speakerCheck self load) = Ok (Some name) ->
  exists d, first_minimum (distances (speakSigs self) spk) name d /\
            (d <? maxSpeakDist self * 2) = true.
Proof.
  intros Hspk Hout.
  assert (Hsize : same_size (speakSigs self) spk).
  { rewrite (outcome_speakerCheck _ _ _ Hspk) in Hout.
    destruct (outcome (speakerLoop _ _ _ _ _)) as [st|e] eqn:E; [|discriminate].
    eapply speakerLoop_returns; exact E. }
  destruct (speakerCheck_selection self load spk Hspk Hsize) as (m & b & _ & Hinv & Hout').
  rewrite Hout' in Hout. destruct (maxSpeakDist self <? m); [discriminate|].
  injection Hout as ->. exists m. exact Hinv.
Qed.

(** At threshold zero a returned name is at a strictly negative distance:
    an exact match, at distance 0, is never returned. *)
Lemma threshold_zero_negative_only self load spk name :
  is_zero (maxSpeakDist self) = true ->
  load_spk load = Some spk ->
  outcome (speakerCheck self load) = Ok (Some name) ->
  exists d, first_minimum (distances (speakSigs self) spk) name d /\
            (d <? 0) = true.
Proof.
  intros Hzero Hspk Hout.
  destruct (speakerCheck_below_double self load spk name Hspk Hout) as (d & Hmin & Hlt).
  exists d. split; [exact Hmin|].
  destruct (Zeros.is_zero_spec _ Hzero) as [s Hs].
  rewrite ltb_spec, mul_spec, Hs in Hlt. rewrite ltb_spec.
  change (Prim2SF 2) with (S754_finite false 4503599627370496 (-51)) in Hlt.
  change (Prim2SF 0) with (S754_zero false).
  destruct s; exact Hlt.
Qed.

(** C3 (as amended). Without an embedding in the payload, with an empty
    registry, or with an embedding of zeros that has the size of every
    registered reference, the matcher returns none and does not raise,
    whatever the threshold. *)
Theorem speakerCheck_degenerate self load :
  load_spk load = None \/
  speakSigs self = [] \/
  (exists spk, load_spk load = Some spk /\ all_zero spk /\
               same_size (speakSigs self) spk) ->
  outcome (speakerCheck self load) = Ok None.
Proof.
  intros [Hnone | [Hempty | (spk & Hspk & Hzero & Hsize)]].
  - unfold speakerCheck. rewrite Hnone. reflexivity.
  - destruct (load_spk load) as [spk|] eqn:Hspk.
    + rewrite (outcome_speakerCheck _ _ _ Hspk), Hempty. simpl.
      destruct (maxSpeakDist self <? maxSpeakDist self * 2); reflexivity.
    + unfold speakerCheck. rewrite Hspk. reflexivity.
  - rewrite (outcome_speakerCheck _ _ _ Hspk), (outcome_speakerLoop _ _ _ Hsize).
    rewrite (Zeros.select_nan _ _ _ (Zeros.distances_zero_nan _ _ Hzero)). simpl.
    destruct (maxSpeakDist self <? maxSpeakDist self * 2); reflexivity.
Qed.

Lemma speakerCheck_degenerate_witness :
  outcome (speakerCheck (speaker_session alice_bob 0.1) (payload (Final "hello" None)))
  = Ok None /\
  outcome (speakerCheck (speaker_session [] 0) (payload (Final "hello" (Some [1; 0; 0]))))
  = Ok None /\
  outcome (speakerCheck (speaker_session alice_bob 0.54)
                        (payload (Final "hello" (Some [0; -0; 0]))))
  = Ok None.
Proof.
  split; [|split].
  - apply speakerCheck_degenerate. left. reflexivity.
  - apply speakerCheck_degenerate. right. left. reflexivity.
  - apply speakerCheck_degenerate. right. right.
    exists [0; -0; 0]. split; [reflexivity|]. split; repeat constructor.
Defined.

(** C3, counterexample: an empty embedding against a registry whose
    reference is not empty makes [np.dot] raise. *)
Lemma speakerCheck_degenerate_counterexample :
  outcome (speakerCheck (speaker_session alice 0.54) (payload (Final "hello" (Some []))))
  = Raise ValueError.
Proof. vm_compute. reflexivity. Qed.

(** A zero norm is not a vector of zeros: the squared norm of a tiny
    embedding underflows to 0, the distance is minus infinity and the
    entry matches. *)
Example underflowing_norm_matches :
  np_linalg_norm [1e-200] = 0 /\
  speakerCheck (speaker_session [("Alice", [1])] 0.54)
               (payload (Final "hello" (Some [1e-200])))
  = ([], Ok (Some "Alice")).
Proof. vm_compute. split; reflexivity. Qed.

(** C9. The name-or-none result of the matcher is a function of the
    registry, the threshold and the embedding alone: two runs that agree
    on these return the same result, whatever the other settings of the
    session and the rest of the payload. *)
Theorem speakerCheck_deterministic self1 self2 load1 load2 :
  speakSigs self1 = speakSigs self2 ->
  maxSpeakDist self1 = maxSpeakDist self2 ->
  load_spk load1 = load_spk load2 ->
  outcome (speakerCheck self1 load1) = outcome (speakerCheck self2 load2).
Proof.
  intros Hsigs Hmax Hspk.
  destruct (load_spk load2) as [spk|] eqn:E.
  - rewrite (outcome_speakerCheck _ _ _ Hspk), (outcome_speakerCheck _ _ _ E).
    rewrite Hsigs, Hmax.
    rewrite (outcome_speakerLoop_verbose (verbose self1) (verbose self2)).
    reflexivity.
  - unfold speakerCheck. rewrite Hspk, E. reflexivity.
Qed.

Lemma speakerCheck_deterministic_witness :
  outcome (speakerCheck (chatty_session alice_bob 0.1 true false)
                        (mkLoad (Some "hello") None (Some [0.99; 0.01; 0])))
  = outcome (speakerCheck (speaker_session alice_bob 0.1)
                          (mkLoad None (Some "hel") (Some [0.99; 0.01; 0]))).
Proof.
  apply speakerCheck_deterministic; reflexivity.
Defined.

(** The cosine distance itself emits nothing: it is a function of its two
    arguments. *)
Lemma cosineDist_pure x y : trace (cosineDist x y) = [].
Proof.
  unfold cosineDist, np_dot. destruct (Nat.eqb _ _); reflexivity.
Qed.

End SpeakerCheck.

(** ** The dispatcher *)

Section Dispatcher.

Lemma callbacks_bind {A B} (m : M A) (k : A -> M B) :
  callbacks (trace (bind m k)) =
  match outcome m with
  | Ok a => callbacks (trace m) ++ callbacks (trace (k a))
  | Raise e => callbacks (trace m)
  end.
Proof.
  rewrite trace_bind. destruct (outcome m); [apply callbacks_app | reflexivity].
Qed.

(** The matcher prints, it never invokes the callback. *)
Lemma callbacks_speakerLoop verb spk sigs :
  forall m b, callbacks (trace (speakerLoop verb spk sigs m b)) = [].
Proof.
  induction sigs as [|[person sig] rest IH]; intros m b; [reflexivity|].
  simpl. rewrite callbacks_bind, cosineDist_pure.
  destruct (outcome (cosineDist sig spk)) as [dist|e]; [|reflexivity].
  simpl. rewrite callbacks_bind, callbacks_when_print, outcome_when_emit.
  simpl. destruct (PrimFloat.ltb dist m); apply IH.
Qed.

Lemma callbacks_speakerCheck self load :
  callbacks (trace (speakerCheck self load)) = [].
Proof.
  unfold speakerCheck. destruct (load_spk load) as [spk|]; [|reflexivity].
  rewrite callbacks_bind, callbacks_speakerLoop.
  destruct (outcome (speakerLoop _ _ _ _ _)) as [st|e]; [|reflexivity].
  simpl. destruct (PrimFloat.ltb _ _); [|reflexivity].
  rewrite callbacks_bind. destruct (printUnknownSigs self); reflexivity.
Qed.

Lemma length_pos_nonempty s : Nat.ltb 0 (String.length s) = true <-> s <> "".
Proof.
  destruct s; simpl; split; intros H; try discriminate; try reflexivity.
  now contradiction H.
Qed.

Lemma filtered_spec self s :
  filterText self && inb s (textFilters self) = true <->
  filterText self = true /\ In s (textFilters self).
Proof. now rewrite andb_true_iff, inb_In. Qed.

(** The callbacks of a final result. *)
Lemma callbacks_final self load s :
  load_text load = Some s ->
  callbacks (trace (checkCallback self load)) =
  if Nat.ltb 0 (String.length s) && negb (filterText self && inb s (textFilters self))
  then match spkModel self with
       | None => [(s, None, true)]
       | Some _ => match outcome (speakerCheck self load) with
                   | Ok sp => [(s, sp, true)]
                   | Raise _ => []
                   end
       end
  else [].
Proof.
  intros Htext. unfold checkCallback. rewrite Htext.
  destruct (Nat.ltb 0 (String.length s)); [|reflexivity].
  destruct (filterText self && inb s (textFilters self)); [reflexivity|].
  simpl. rewrite callbacks_bind.
  destruct (spkModel self) as [path|]; [|reflexivity].
  rewrite callbacks_speakerCheck.
  destruct (outcome (speakerCheck self load)); reflexivity.
Qed.

(** The whole computation for a payload without ["text"]. *)
Lemma checkCallback_partial self load :
  load_text load = None ->
  checkCallback self load =
  match load_partial load with
  | Some s =>
      if partial self && Nat.ltb 0 (String.length s)
         && negb (filterText self && inb s (textFilters self))
      then ([Callback s None false], Ok tt)
      else ([], Ok tt)
  | None => ([], Ok tt)
  end.
Proof.
  intros Htext. unfold checkCallback. rewrite Htext.
  destruct (load_partial load) as [s|]; [|reflexivity].
  destruct (partial self); [|reflexivity].
  destruct (Nat.ltb 0 (String.length s)); [|reflexivity].
  destruct (filterText self && inb s (textFilters self)); reflexivity.
Qed.

(** A final result the filter suppresses gives no callback. *)
Lemma callbacks_final_filtered self load s :
  load_text load = Some s ->
  filterText self = true ->
  In s (textFilters self) ->
  callbacks (trace (checkCallback self load)) = [].
Proof.
  intros Htext Hf Hin. rewrite (callbacks_final self load s Htext).
  assert (E : filterText self && inb s (textFilters self) = true)
    by (apply filtered_spec; auto).
  rewrite E, andb_false_r. reflexivity.
Qed.

(** A final result that passes both checks reaches the speaker
    resolution. *)
Lemma callbacks_final_passed self load s :
  load_text load = Some s ->
  s <> "" ->
  ~ (filterText self = true /\ In s (textFilters self)) ->
  callbacks (trace (checkCallback self load)) =
  match spkModel self with
  | None => [(s, None, true)]
  | Some _ => match outcome (speakerCheck self load) with
              | Ok sp => [(s, sp, true)]
              | Raise _ => []
              end
  end.
Proof.
  intros Htext Hne Hnf. rewrite (callbacks_final self load s Htext).
  apply length_pos_nonempty in Hne. rewrite Hne.
  destruct (filterText self && inb s (textFilters self)) eqn:E; [|reflexivity].
  apply filtered_spec in E. contradiction.
Qed.

(** C4 (as amended). For a final result with text [s]: an empty text
    gives no callback; with [filterText] enabled a text of the filter set
    gives no callback; otherwise, without a speaker model the callback is
    invoked exactly once with [(s, none, true)], and with a speaker model
    it is invoked exactly once with [(s, speaker, true)] for the speaker
    the matcher returns, and not at all when the matcher raises. *)
Theorem final_result_dispatch self load s :
  load_text load = Some s ->
  (s = "" -> callbacks (trace (checkCallback self load)) = []) /\
  (filterText self = true -> In s (textFilters self) ->
   callbacks (trace (checkCallback self load)) = []) /\
  (s <> "" -> ~ (filterText self = true /\ In s (textFilters self)) ->
   match spkModel self with
   | None => callbacks (trace (checkCallback self load)) = [(s, None, true)]
   | Some _ =>
       match outcome (speakerCheck self load) with
       | Ok sp => callbacks (trace (checkCallback self load)) = [(s, sp, true)]
       | Raise _ => callbacks (trace (checkCallback self load)) = []
       end
   end).
Proof.
  intros Htext. rewrite (callbacks_final self load s Htext).
  split; [|split].
  - intros ->. reflexivity.
  - intros Hf Hin.
    assert (E : filterText self && inb s (textFilters self) = true)
      by (apply filtered_spec; auto).
    rewrite E, andb_false_r. reflexivity.
  - intros Hne Hnf. apply length_pos_nonempty in Hne. rewrite Hne.
    destruct (filterText self && inb s (textFilters self)) eqn:E.
    + apply filtered_spec in E. contradiction.
    + simpl. destruct (spkModel self); [|reflexivity].
      destruct (outcome (speakerCheck self load)); reflexivity.
Qed.

Lemma final_result_dispatch_witness :
  callbacks (trace (checkCallback (speaker_session alice_bob 0.1%float)
                      (payload (Final "hello" (Some [0.99; 0.01; 0]%float)))))
  = [("hello", Some "Alice", true)].
Proof.
  destruct (final_result_dispatch (speaker_session alice_bob 0.1%float)
              (payload (Final "hello" (Some [0.99; 0.01; 0]%float))) "hello" eq_refl)
    as (_ & _ & H).
  assert (Hne : "hello" <> "") by discriminate.
  assert (Hnf : ~ (filterText (speaker_session alice_bob 0.1%float) = true /\
                   In "hello" (textFilters (speaker_session alice_bob 0.1%float)))).
  { intros [_ Hin]. simpl in Hin. intuition discriminate. }
  specialize (H Hne Hnf). vm_compute in H. vm_compute. exact H.
Defined.

(** C4, counterexample: a final result with a text that is neither empty
    nor filtered, for which the callback is not invoked: the matcher
    raises on an embedding of another size than the reference. *)
Lemma final_result_dispatch_counterexample :
  load_text (payload (Final "hello" (Some [1; 0]%float))) = Some "hello" /\
  inb "hello" (textFilters (speaker_session alice 0.54%float)) = false /\
  checkCallback (speaker_session alice 0.54%float)
                (payload (Final "hello" (Some [1; 0]%float)))
  = ([], Raise ValueError).
Proof. vm_compute. split; [|split]; reflexivity. Qed.

(** C5 (as amended). A partial result is dispatched exactly when
    [partial] is enabled, its text is not empty and the filter does not
    suppress it; and the [partial] flag changes nothing for a final
    result: events and outcome are the same whatever its value. *)
Theorem partialMode_dispatch self b part s final t :
  load_text part = None ->
  load_partial part = Some s ->
  load_text final = Some t ->
  (dispatched (checkCallback self part) <->
   partial self = true /\ s <> "" /\
   ~ (filterText self = true /\ In s (textFilters self))) /\
  checkCallback (set_partial b self) final = checkCallback self final.
Proof.
  intros Hnone Hpart Hfinal. split.
  - unfold dispatched. rewrite (checkCallback_partial self part Hnone), Hpart.
    rewrite <- length_pos_nonempty, <- filtered_spec.
    destruct (partial self), (Nat.ltb 0 (String.length s)),
      (filterText self && inb s (textFilters self)); simpl;
      split; try discriminate; try tauto; intuition discriminate.
  - unfold checkCallback. rewrite Hfinal. reflexivity.
Qed.

Lemma partialMode_dispatch_witness :
  (dispatched (checkCallback (text_session true true) (payload (Partial "hel"))) <->
   partial (text_session true true) = true /\ "hel" <> "" /\
   ~ (filterText (text_session true true) = true /\
      In "hel" (textFilters (text_session true true)))) /\
  checkCallback (set_partial false (text_session true true))
                (payload (Final "hello" None))
  = checkCallback (text_session true true) (payload (Final "hello" None)).
Proof.
  apply (partialMode_dispatch (text_session true true) false
           (payload (Partial "hel")) "hel" (payload (Final "hello" None)) "hello");
    reflexivity.
Defined.

(** C5, counterexample: with [partial] enabled, a partial result with an
    empty text, and one with a filtered text, are not dispatched. *)
Lemma partialMode_dispatch_counterexample :
  partial (text_session true true) = true /\
  checkCallback (text_session true true) (payload (Partial "")) = ([], Ok tt) /\
  checkCallback (text_session true true) (payload (Partial "huh")) = ([], Ok tt).
Proof. vm_compute. split; [|split]; reflexivity. Qed.

(** Every invocation of the callback carries a text the filter lets
    through. *)
Lemma callback_texts_unfiltered self load s :
  In s (callback_texts (checkCallback self load)) ->
  filterText self && inb s (textFilters self) = false.
Proof.
  unfold callback_texts. destruct (load_text load) as [t|] eqn:Htext.
  - rewrite (callbacks_final self load t Htext).
    destruct (Nat.ltb 0 (String.length t)); simpl; [|tauto].
    destruct (filterText self && inb t (textFilters self)) eqn:E; simpl; [tauto|].
    destruct (spkModel self); [destruct (outcome (speakerCheck self load))|]; simpl;
      intros H; try tauto; destruct H as [<- | []]; exact E.
  - rewrite (checkCallback_partial self load Htext).
    destruct (load_partial load) as [t|]; simpl; [|tauto].
    destruct (partial self), (Nat.ltb 0 (String.length t)); simpl; try tauto.
    destruct (filterText self && inb t (textFilters self)) eqn:E; simpl; [tauto|].
    intros [<- | []]. exact E.
Qed.

(** C6 (as amended). With [filterText] enabled, for every filter list and
    every text [t] in it, no recognition result, final or partial, makes
    the dispatcher invoke the callback with the text [t]. *)
Theorem filtered_text_never_dispatched self load t :
  filterText self = true ->
  In t (textFilters self) ->
  ~ In t (callback_texts (checkCallback self load)).
Proof.
  intros Hf Hin Hcall.
  apply callback_texts_unfiltered in Hcall.
  assert (E : filterText self && inb t (textFilters self) = true)
    by (apply filtered_spec; auto).
  congruence.
Qed.

Lemma filtered_text_never_dispatched_witness :
  In "by" (textFilters (text_session true true)) /\
  ~ In "by" (callback_texts (checkCallback (text_session true true)
                                           (payload (Partial "by")))) /\
  ~ In "by" (callback_texts (checkCallback (text_session true true)
                                           (payload (Final "by" None)))).
Proof.
  split; [simpl; tauto|].
  split; apply filtered_text_never_dispatched; simpl; tauto.
Defined.

(** C6, counterexample: with [filterText] disabled the text "huh" of the
    filter list reaches the callback. *)
Lemma filtered_text_never_dispatched_counterexample :
  inb "huh" (textFilters (text_session false false)) = true /\
  checkCallback (text_session false false) (payload (Final "huh" None))
  = ([Callback "huh" None true], Ok tt).
Proof. vm_compute. split; reflexivity. Qed.

Lemma speakerCheck_set_textFilters l self load :
  speakerCheck (set_textFilters l self) load = speakerCheck self load.
Proof. reflexivity. Qed.

(** C7. [addFilterWords] appends its words to the filter list, and the
    filter compares whole strings: once "echo" is added to a session that
    filters (the default) and that does not hold "echo " already, a final
    result "echo" gives no callback, and a final result "echo " (with a
    trailing space) is dispatched, once, with the speaker that the speaker
    resolution returns. *)
Theorem addFilterWords_exact_match self words emb sp :
  filterText self = true ->
  ~ In "echo " (textFilters self) ->
  speaker_resolves self (payload (Final "echo " emb)) sp ->
  textFilters (addFilterWords self words) = textFilters self ++ words /\
  callbacks (trace (checkCallback (addFilterWords self ["echo"])
                                  (payload (Final "echo" emb)))) = [] /\
  callbacks (trace (checkCallback (addFilterWords self ["echo"])
                                  (payload (Final "echo " emb))))
  = [("echo ", sp, true)].
Proof.
  intros Hf Hnot Hsp. split; [reflexivity|]. split.
  - apply (callbacks_final_filtered (addFilterWords self ["echo"])
             (payload (Final "echo" emb)) "echo" eq_refl); [exact Hf|].
    simpl. apply in_or_app. right. left. reflexivity.
  - assert (Hne : "echo " <> "") by discriminate.
    assert (Hnf : ~ (filterText (addFilterWords self ["echo"]) = true /\
                     In "echo " (textFilters (addFilterWords self ["echo"])))).
    { intros [_ Hin]. simpl in Hin. apply in_app_or in Hin.
      destruct Hin as [Hin | [Hin | []]]; [exact (Hnot Hin) | discriminate]. }
    rewrite (callbacks_final_passed (addFilterWords self ["echo"])
               (payload (Final "echo " emb)) "echo " eq_refl Hne Hnf).
    unfold speaker_resolves in Hsp.
    change (spkModel (addFilterWords self ["echo"])) with (spkModel self).
    unfold addFilterWords. rewrite speakerCheck_set_textFilters.
    destruct (spkModel self).
    + rewrite Hsp. reflexivity.
    + subst sp. reflexivity.
Qed.

Lemma addFilterWords_exact_match_witness :
  textFilters (addFilterWords (init default_args) ["echo"])
  = ["huh"; "by"; "but"; "echo"] /\
  callbacks (trace (checkCallback (addFilterWords (init default_args) ["echo"])
                                  (payload (Final "echo" None)))) = [] /\
  callbacks (trace (checkCallback (addFilterWords (init default_args) ["echo"])
                                  (payload (Final "echo " None))))
  = [("echo ", None, true)].
Proof.
  apply (addFilterWords_exact_match (init default_args) ["echo"] None None).
  - reflexivity.
  - simpl. intuition discriminate.
  - reflexivity.
Defined.

(** C8. For a partial result (a payload without ["text"]) the dispatcher
    never raises and its only possible event is one invocation of the
    callback with the partial text, speaker none and [isFull] false: the
    matcher does not run (it would print or raise), and the computation
    is the same for every session with the same [partial] flag and filter
    settings, with or without a speaker model. *)
Theorem partial_result_no_speaker self load :
  load_text load = None ->
  outcome (checkCallback self load) = Ok tt /\
  (trace (checkCallback self load) = [] \/
   exists s, load_partial load = Some s /\
             trace (checkCallback self load) = [Callback s None false]) /\
  (forall self',
      partial self' = partial self ->
      filterText self' = filterText self ->
      textFilters self' = textFilters self ->
      checkCallback self' load = checkCallback self load).
Proof.
  intros Htext. split; [|split].
  - rewrite (checkCallback_partial self load Htext).
    destruct (load_partial load) as [s|]; [|reflexivity].
    destruct (_ && _); reflexivity.
  - rewrite (checkCallback_partial self load Htext).
    destruct (load_partial load) as [s|]; [|left; reflexivity].
    destruct (_ && _); [right; exists s; split; reflexivity | left; reflexivity].
  - intros self' Hp Hf Hl.
    rewrite (checkCallback_partial self load Htext),
      (checkCallback_partial self' load Htext), Hp, Hf, Hl. reflexivity.
Qed.

Lemma partial_result_no_speaker_witness :
  outcome (checkCallback (chatty_session alice_bob 0.1%float true true)
                         (mkLoad None (Some "hel") (Some [1; 0]%float))) = Ok tt /\
  (trace (checkCallback (chatty_session alice_bob 0.1%float true true)
                        (mkLoad None (Some "hel") (Some [1; 0]%float))) = [] \/
   exists s, Some "hel" = Some s /\
             trace (checkCallback (chatty_session alice_bob 0.1%float true true)
                                  (mkLoad None (Some "hel") (Some [1; 0]%float)))
             = [Callback s None false]) /\
  (forall self',
      partial self' = true ->
      filterText self' = false ->
      textFilters self' = ["huh"; "by"; "but"] ->
      checkCallback self' (mkLoad None (Some "hel") (Some [1; 0]%float))
      = checkCallback (chatty_session alice_bob 0.1%float true true)
                      (mkLoad None (Some "hel") (Some [1; 0]%float))).
Proof.
  apply (partial_result_no_speaker (chatty_session alice_bob 0.1%float true true)
           (mkLoad None (Some "hel") (Some [1; 0]%float))).
  reflexivity.
Defined.

(** A partial payload that carries an embedding, on a session with a
    speaker model: one callback, no matcher event. *)
Example partial_with_embedding :
  checkCallback (chatty_session alice_bob 0.1%float true true)
                (mkLoad None (Some "hel") (Some [1; 0]%float))
  = ([Callback "hel" None false], Ok tt).
Proof. vm_compute. reflexivity. Qed.

(** C10. A session built by [__init__] has the filter list
    ["huh"; "by"; "but"], whatever the arguments; [filterText] defaults to
    enabled; and with [filterText] left at its default a final result
    whose text is one of the three gives no callback and no exception. *)
Theorem init_filters_defaults a load t :
  arg_filterText a = arg_filterText default_args ->
  load_text load = Some t ->
  In t ["huh"; "by"; "but"] ->
  textFilters (init a) = ["huh"; "by"; "but"] /\
  filterText (init default_args) = true /\
  callbacks (trace (checkCallback (init a) load)) = [] /\
  outcome (checkCallback (init a) load) = Ok tt.
Proof.
  intros Hdef Htext Hin. split; [reflexivity|]. split; [reflexivity|].
  assert (E : filterText (init a) && inb t (textFilters (init a)) = true).
  { apply filtered_spec. split; [exact Hdef | exact Hin]. }
  split.
  - apply (callbacks_final_filtered (init a) load t Htext); [exact Hdef | exact Hin].
  - unfold checkCallback. rewrite Htext, E.
    destruct (Nat.ltb 0 (String.length t)); reflexivity.
Qed.

Lemma init_filters_defaults_witness :
  textFilters (init default_args) = ["huh"; "by"; "but"] /\
  filterText (init default_args) = true /\
  callbacks (trace (checkCallback (init default_args)
                                  (payload (Final "but" None)))) = [] /\
  outcome (checkCallback (init default_args) (payload (Final "but" None))) = Ok tt.
Proof.
  apply (init_filters_defaults default_args (payload (Final "but" None)) "but").
  - reflexivity.
  - reflexivity.
  - simpl. tauto.
Defined.

End Dispatcher.

(** ** More on the matcher *)

Section MatcherMore.
Local Open Scope float_scope.

Lemma leb_trans x y z : (x <=? y) = true -> (y <=? z) = true -> (x <=? z) = true.
Proof.
  rewrite !leb_spec. unfold SFleb. rewrite !IEEE.SFcompare_rank.
  destruct (rank (Prim2SF x)) as [[[a1 a2] a3]|], (rank (Prim2SF y)) as [[[b1 b2] b3]|],
    (rank (Prim2SF z)) as [[[c1 c2] c3]|]; try discriminate; simpl.
  destruct (Z.compare_spec a1 b1), (Z.compare_spec b1 c1), (Z.compare_spec a1 c1);
    try lia; try discriminate; try reflexivity;
    destruct (Z.compare_spec a2 b2), (Z.compare_spec b2 c2), (Z.compare_spec a2 c2);
    try lia; try discriminate; try reflexivity;
    destruct (Z.compare_spec a3 b3), (Z.compare_spec b3 c3), (Z.compare_spec a3 c3);
    try lia; try discriminate; try reflexivity.
Qed.

(** A product that is a number has factors that are numbers. *)
Lemma mul_number_l x y : is_number (x * y) = true -> is_number x = true.
Proof.
  rewrite !IEEE.is_number_rank, mul_spec. unfold SF64mul, SFmul.
  destruct (Prim2SF x) as [s|s| |s m e]; simpl; intros [a Ha]; eauto;
    destruct s; eauto.
Qed.

(** The loop raises exactly when a reference has another size than the
    embedding. *)
Lemma speakerLoop_raises verb spk sigs m b :
  outcome (speakerLoop verb spk sigs m b) = Raise ValueError <->
  ~ same_size sigs spk.
Proof.
  split.
  - intros H Hsize. rewrite (outcome_speakerLoop _ _ _ Hsize) in H. discriminate.
  - intros Hsize. destruct (outcome (speakerLoop verb spk sigs m b)) as [st|[]] eqn:E;
      [|reflexivity].
    exfalso. apply Hsize. eapply speakerLoop_returns; exact E.
Qed.

(** X1. The matcher raises exactly when the payload carries an
    embedding and some registered reference has another size than it,
    whatever the threshold and the position of that reference. *)
Theorem speakerCheck_raises_iff self load :
  outcome (speakerCheck self load) = Raise ValueError <->
  exists spk, load_spk load = Some spk /\ ~ same_size (speakSigs self) spk.
Proof.
  destruct (load_spk load) as [spk|] eqn:Hspk.
  - rewrite (outcome_speakerCheck _ _ _ Hspk).
    pose proof (speakerLoop_raises (verbose self) spk (speakSigs self)
                  (maxSpeakDist self * 2) None) as Hloop.
    destruct (outcome (speakerLoop _ _ _ _ _)) as [st|[]].
    + split.
      * destruct (maxSpeakDist self <? fst st); discriminate.
      * intros (spk' & [= <-] & Hsize). apply Hloop in Hsize. discriminate.
    + split; [|reflexivity]. intros _. exists spk. split; [reflexivity|].
      apply Hloop. reflexivity.
  - unfold speakerCheck. rewrite Hspk. split; [discriminate|].
    intros (spk & Habs & _). discriminate.
Qed.

(** X2. A name the matcher returns is a key of the registry, its
    reference has the size of the embedding, and its distance is a number
    that is at most the threshold, for every threshold: the matcher never
    invents a name and never accepts one beyond [maxSpeakThresh]. *)
Theorem speakerCheck_returns_registered self load name :
  outcome (speakerCheck self load) = Ok (Some name) ->
  exists spk ref,
    load_spk load = Some spk /\
    In (name, ref) (speakSigs self) /\
    List.length ref = List.length spk /\
    is_number (cosine ref spk) = true /\
    (cosine ref spk <=? maxSpeakDist self) = true.
Proof.
  intros Hout.
  destruct (load_spk load) as [spk|] eqn:Hspk;
    [|unfold speakerCheck in Hout; rewrite Hspk in Hout; discriminate].
  assert (Hsize : same_size (speakSigs self) spk).
  { rewrite (outcome_speakerCheck _ _ _ Hspk) in Hout.
    destruct (outcome (speakerLoop _ _ _ _ _)) as [st|e] eqn:E; [|discriminate].
    eapply speakerLoop_returns; exact E. }
  destruct (speakerCheck_selection self load spk Hspk Hsize) as (m & b & _ & Hinv & Hout').
  rewrite Hout' in Hout.
  destruct (maxSpeakDist self <? m) eqn:Hexceeds; [discriminate|].
  injection Hout as ->. destruct Hinv as [(before & after & Hds & Hm & _ & _) Hbelow].
  assert (Hin : In (name, m) (distances (speakSigs self) spk))
    by (rewrite Hds; apply in_or_app; right; left; reflexivity).
  unfold distances in Hin. apply in_map_iff in Hin.
  destruct Hin as ([name' ref] & [= -> <-] & Hin). simpl in *.
  exists spk, ref. split; [reflexivity|]. split; [exact Hin|]. split.
  - unfold same_size in Hsize. rewrite Forall_forall in Hsize. exact (Hsize _ Hin).
  - split; [exact Hm|]. apply IEEE.not_ltb_leb; [exact Hm | | exact Hexceeds].
    destruct (IEEE.ltb_is_number _ _ Hbelow) as [_ Hdouble].
    eapply mul_number_l; exact Hdouble.
Qed.

Lemma speakerCheck_returns_registered_witness :
  exists spk ref,
    load_spk (payload (Final "hello" (Some [0.99; 0.01; 0]))) = Some spk /\
    In ("Alice", ref) (speakSigs (speaker_session alice_bob 0.1)) /\
    List.length ref = List.length spk /\
    is_number (cosine ref spk) = true /\
    (cosine ref spk <=? maxSpeakDist (speaker_session alice_bob 0.1)) = true.
Proof.
  apply (speakerCheck_returns_registered (speaker_session alice_bob 0.1)
           (payload (Final "hello" (Some [0.99; 0.01; 0]))) "Alice").
  vm_compute. reflexivity.
Defined.

(** X3. Smaller thresholds are tighter: when the matcher returns a name
    under a threshold, it returns the same name under every larger
    positive threshold, the registry and the payload being the same. *)
Theorem looser_threshold_keeps_match self self' load name :
  speakSigs self' = speakSigs self ->
  (maxSpeakDist self <=? maxSpeakDist self') = true ->
  (maxSpeakDist self' <? maxSpeakDist self' * 2) = true ->
  outcome (speakerCheck self load) = Ok (Some name) ->
  outcome (speakerCheck self' load) = Ok (Some name).
Proof.
  intros Hsigs Hle Hpos Hout.
  destruct (load_spk load) as [spk|] eqn:Hspk;
    [|unfold speakerCheck in Hout; rewrite Hspk in Hout; discriminate].
  assert (Hsize : same_size (speakSigs self) spk).
  { rewrite (outcome_speakerCheck _ _ _ Hspk) in Hout.
    destruct (outcome (speakerLoop _ _ _ _ _)) as [st|e] eqn:E; [|discriminate].
    eapply speakerLoop_returns; exact E. }
  destruct (speakerCheck_selection self load spk Hspk Hsize) as (m & b & _ & Hinv & Hout1).
  rewrite Hout1 in Hout.
  destruct (maxSpeakDist self <? m) eqn:Hexceeds; [discriminate|].
  injection Hout as ->. destruct Hinv as [Hmin Hbelow].
  assert (Hm : is_number m = true) by (destruct Hmin as (? & ? & _ & H & _); exact H).
  assert (Hwithin : (m <=? maxSpeakDist self') = true).
  { eapply leb_trans; [|exact Hle].
    apply IEEE.not_ltb_leb; [exact Hm | | exact Hexceeds].
    destruct (IEEE.ltb_is_number _ _ Hbelow) as [_ Hdouble].
    eapply mul_number_l; exact Hdouble. }
  rewrite <- Hsigs in Hsize, Hmin.
  destruct (speakerCheck_result self' load spk Hspk Hpos Hsize) as (r & Hout2 & Hr).
  rewrite Hout2. destruct r as [name'|].
  - destruct Hr as (d' & Hmin' & _).
    destruct (first_minimum_unique _ _ _ _ _ Hmin Hmin') as [-> _]. reflexivity.
  - exfalso. eapply first_minimum_within; eauto.
Qed.

Lemma looser_threshold_keeps_match_witness :
  outcome (speakerCheck (speaker_session alice_bob 0.54)
                        (payload (Final "hello" (Some [0.99; 0.01; 0]))))
  = Ok (Some "Alice").
Proof.
  apply (looser_threshold_keeps_match (speaker_session alice_bob 0.1)
           (speaker_session alice_bob 0.54)
           (payload (Final "hello" (Some [0.99; 0.01; 0]))) "Alice").
  - reflexivity.
  - vm_compute. reflexivity.
  - vm_compute. reflexivity.
  - vm_compute. reflexivity.
Defined.

(** What the loop prints when sizes agree. *)
Lemma trace_speakerLoop verb spk sigs :
  same_size sigs spk ->
  forall m b,
    trace (speakerLoop verb spk sigs m b) =
    if verb then map (fun p => PrintDistance (fst p) (snd p)) (distances sigs spk)
    else [].
Proof.
  induction 1 as [|[person sig] rest Hlen _ IH]; intros m b;
    [destruct verb; reflexivity|].
  simpl in Hlen |- *.
  rewrite trace_bind, cosineDist_pure, outcome_cosineDist, Hlen, Nat.eqb_refl.
  simpl. rewrite trace_bind, outcome_when_emit.
  destruct (cosine sig spk <? m); rewrite IH; destruct verb; reflexivity.
Qed.

(** What the matcher prints when sizes agree. *)
Lemma trace_speakerCheck self load spk :
  load_spk load = Some spk ->
  same_size (speakSigs self) spk ->
  trace (speakerCheck self load) =
  (if verbose self
   then map (fun p => PrintDistance (fst p) (snd p)) (distances (speakSigs self) spk)
   else []) ++
  (if (maxSpeakDist self <?
       fst (select (distances (speakSigs self) spk) (maxSpeakDist self * 2) None))
      && printUnknownSigs self
   then [PrintUnknown spk] else []).
Proof.
  intros Hspk Hsize. unfold speakerCheck. rewrite Hspk, trace_bind.
  rewrite (outcome_speakerLoop _ _ _ Hsize), (trace_speakerLoop _ _ _ Hsize).
  f_equal.
  destruct (maxSpeakDist self <? fst (select _ _ _)); [|reflexivity].
  destruct (printUnknownSigs self); reflexivity.
Qed.

Lemma distance_prints_app t1 t2 :
  distance_prints (t1 ++ t2) = distance_prints t1 ++ distance_prints t2.
Proof.
  induction t1 as [|ev t1 IH]; simpl; [reflexivity|].
  destruct ev; simpl; now rewrite IH.
Qed.

Lemma distance_prints_map ds :
  distance_prints (map (fun p => PrintDistance (fst p) (snd p)) ds) = ds.
Proof.
  induction ds as [|[person dist] ds IH]; simpl; [reflexivity | now rewrite IH].
Qed.

(** X4. With [verbose] set the matcher prints the distance of every
    registry entry, one line per entry in registry order, whether or not
    an entry already matched; without [verbose] it prints no distance. *)
Theorem verbose_prints_every_distance self load spk :
  load_spk load = Some spk ->
  same_size (speakSigs self) spk ->
  distance_prints (trace (speakerCheck self load)) =
  if verbose self then distances (speakSigs self) spk else [].
Proof.
  intros Hspk Hsize.
  rewrite (trace_speakerCheck _ _ _ Hspk Hsize), distance_prints_app.
  assert (Hlast : forall c : bool,
             distance_prints (if c then [PrintUnknown spk] else []) = [])
    by (intros []; reflexivity).
  rewrite Hlast, app_nil_r.
  destruct (verbose self); [apply distance_prints_map | reflexivity].
Qed.

Lemma verbose_prints_every_distance_witness :
  distance_prints (trace (speakerCheck (chatty_session alice_bob 0.1 true false)
                            (payload (Final "hello" (Some [0.99; 0.01; 0])))))
  = distances alice_bob [0.99; 0.01; 0].
Proof.
  apply (verbose_prints_every_distance (chatty_session alice_bob 0.1 true false)
           (payload (Final "hello" (Some [0.99; 0.01; 0]))) [0.99; 0.01; 0]).
  - reflexivity.
  - repeat constructor.
Defined.

Lemma In_unknown_prints spk ds :
  ~ In (PrintUnknown spk) (map (fun p => PrintDistance (fst p) (snd p)) ds).
Proof.
  intros H. apply in_map_iff in H. destruct H as (p & Hp & _). discriminate.
Qed.

(** X5. For a positive threshold and references of the embedding's
    size, the line "Unknown X-vector" with the embedding is printed
    exactly when [printUnknownSigs] is set and the matcher returns none:
    every unmatched embedding is shown, no matched one is. *)
Theorem unknown_print_iff self load spk :
  load_spk load = Some spk ->
  (maxSpeakDist self <? maxSpeakDist self * 2) = true ->
  same_size (speakSigs self) spk ->
  In (PrintUnknown spk) (trace (speakerCheck self load)) <->
  printUnknownSigs self = true /\ outcome (speakerCheck self load) = Ok None.
Proof.
  intros Hspk Hpos Hsize.
  destruct (speakerCheck_selection self load spk Hspk Hsize) as (m & b & Hsel & Hinv & Hout).
  rewrite (trace_speakerCheck _ _ _ Hspk Hsize), Hsel, Hout. simpl.
  rewrite in_app_iff.
  assert (Hdist : ~ In (PrintUnknown spk)
                    (if verbose self
                     then map (fun p => PrintDistance (fst p) (snd p))
                              (distances (speakSigs self) spk)
                     else [])).
  { destruct (verbose self); [apply In_unknown_prints | intros []]. }
  destruct (maxSpeakDist self <? m) eqn:Hexceeds; simpl.
  - destruct (printUnknownSigs self); simpl; split.
    + intros _. split; reflexivity.
    + intros _. right. left. reflexivity.
    + intros [H | []]. contradiction.
    + intros [H _]. discriminate.
  - split.
    + intros [H | []]. contradiction.
    + intros [_ H]. injection H as ->. destruct Hinv as [-> _]. congruence.
Qed.

Lemma unknown_print_iff_witness :
  In (PrintUnknown [0; 0; 1])
     (trace (speakerCheck (speaker_session alice_bob 0.1)
                          (payload (Final "hello" (Some [0; 0; 1]))))) <->
  printUnknownSigs (speaker_session alice_bob 0.1) = true /\
  outcome (speakerCheck (speaker_session alice_bob 0.1)
                        (payload (Final "hello" (Some [0; 0; 1])))) = Ok None.
Proof.
  apply (unknown_print_iff (speaker_session alice_bob 0.1)
           (payload (Final "hello" (Some [0; 0; 1]))) [0; 0; 1]).
  - reflexivity.
  - vm_compute. reflexivity.
  - repeat constructor.
Defined.

(** The sum of products with a vector of zeros on the left. *)
Lemma dot_zero_l x :
  forall y acc,
    all_zero x ->
    zero_or_nan (Prim2SF acc) = true ->
    zero_or_nan (Prim2SF (dot_from acc x y)) = true.
Proof.
  induction x as [|a x IH]; intros [|b y] acc Hx Hacc; simpl; auto.
  inversion Hx as [|? ? Ha Hx']; subst. apply IH; [exact Hx'|].
  rewrite add_spec, mul_spec. destruct (Zeros.is_zero_spec _ Ha) as [s ->].
  destruct (Prim2SF acc) as [sa|sa| |sa ma ea]; try discriminate;
    destruct (Prim2SF b) as [sx|sx| |sx mx ex]; simpl;
    try reflexivity; destruct sa, sx, s; reflexivity.
Qed.

(** The distance from a reference of zeros is NaN. *)
Lemma cosine_zero_reference x e : all_zero x -> Prim2SF (cosine x e) = S754_nan.
Proof.
  intros Hx. unfold cosine.
  rewrite sub_spec, div_spec, div_spec, (Zeros.norm_zero x Hx).
  pose proof (dot_zero_l x e 0 Hx eq_refl) as Hd.
  destruct (Prim2SF (dot_from 0 x e)) as [sd|sd| |sd md ed]; try discriminate;
    destruct (Prim2SF (np_linalg_norm e)) as [sn|sn| |sn mn en]; simpl;
    destruct (Prim2SF 1); reflexivity.
Qed.

(** A dict holds one value per key. *)
Lemma NoDup_keys_unique {A} (l : list (string * A)) k v1 v2 :
  NoDup (map fst l) -> In (k, v1) l -> In (k, v2) l -> v1 = v2.
Proof.
  induction l as [|[k' v'] l IH]; simpl; intros Hnd H1 H2; [contradiction|].
  inversion Hnd as [|? ? Hnotin Hnd']; subst.
  destruct H1 as [E1 | H1], H2 as [E2 | H2].
  - congruence.
  - exfalso. injection E1 as -> _. apply Hnotin. apply (in_map fst) in H2. exact H2.
  - exfalso. injection E2 as -> _. apply Hnotin. apply (in_map fst) in H1. exact H1.
  - now apply IH.
Qed.

(** X6. A registry entry whose reference is a vector of zeros is never
    returned, for any embedding and any threshold: its distance is NaN,
    and a NaN distance never becomes the best fit. *)
Theorem zero_reference_never_matches self load name ref :
  NoDup (map fst (speakSigs self)) ->
  In (name, ref) (speakSigs self) ->
  all_zero ref ->
  outcome (speakerCheck self load) <> Ok (Some name).
Proof.
  intros Hkeys Hin Hzero Hout.
  destruct (load_spk load) as [spk|] eqn:Hspk;
    [|unfold speakerCheck in Hout; rewrite Hspk in Hout; discriminate].
  destruct (speakerCheck_below_double self load spk name Hspk Hout)
    as (d & (before & after & Hds & Hd & _ & _) & _).
  assert (Hd_in : In (name, d) (distances (speakSigs self) spk))
    by (rewrite Hds; apply in_or_app; right; left; reflexivity).
  unfold distances in Hd_in. apply in_map_iff in Hd_in.
  destruct Hd_in as ([name' ref'] & [= -> <-] & Hin'). simpl in *.
  rewrite (NoDup_keys_unique _ _ _ _ Hkeys Hin' Hin) in Hd.
  apply IEEE.is_number_rank in Hd. destruct Hd as [a Ha].
  rewrite (cosine_zero_reference ref spk Hzero) in Ha. discriminate.
Qed.

Lemma zero_reference_never_matches_witness :
  all_zero [0; 0] /\
  outcome (speakerCheck (speaker_session [("Ghost", [0; 0]); ("Bob", [1; 0])] 0.54)
                        (payload (Final "hello" (Some [1; 0]))))
  <> Ok (Some "Ghost").
Proof.
  split; [repeat constructor|].
  apply (zero_reference_never_matches
           (speaker_session [("Ghost", [0; 0]); ("Bob", [1; 0])] 0.54)
           (payload (Final "hello" (Some [1; 0]))) "Ghost" [0; 0]).
  - simpl. repeat constructor; simpl; intuition discriminate.
  - left. reflexivity.
  - repeat constructor.
Defined.

End MatcherMore.

(** ** More on the dispatcher *)

Section DispatcherMore.


(** X7. A recognition result gives at most one invocation of the
    callback, never with an empty text: a final invocation carries the
    text of ["text"]; a partial invocation carries the text of
    ["partial"], no speaker, and happens only with [partial] enabled and
    without a ["text"] key in the payload. *)
Theorem one_callback_per_result self load :
  callbacks (trace (checkCallback self load)) = [] \/
  exists s sp f,
    callbacks (trace (checkCallback self load)) = [(s, sp, f)] /\
    s <> "" /\
    ((f = true /\ load_text load = Some s) \/
     (f = false /\ sp = None /\ partial self = true /\
      load_text load = None /\ load_partial load = Some s)).
Proof.
  destruct (load_text load) as [s|] eqn:Htext.
  - rewrite (callbacks_final self load s Htext).
    destruct (Nat.ltb 0 (String.length s)) eqn:Hlen; simpl; [|left; reflexivity].
    apply length_pos_nonempty in Hlen.
    destruct (negb _); [|left; reflexivity].
    destruct (spkModel self) as [path|].
    + destruct (outcome (speakerCheck self load)) as [sp|e]; [|left; reflexivity].
      right. exists s, sp, true. auto.
    + right. exists s, None, true. auto.
  - rewrite (checkCallback_partial self load Htext).
    destruct (load_partial load) as [s|]; [|left; reflexivity].
    destruct (partial self); simpl; [|left; reflexivity].
    destruct (Nat.ltb 0 (String.length s)) eqn:Hlen; simpl; [|left; reflexivity].
    apply length_pos_nonempty in Hlen.
    destruct (negb _); [|left; reflexivity].
    right. exists s, None, false. simpl. split; [reflexivity|]. split; [exact Hlen|].
    right. auto.
Qed.




(** X10. A speaker handed to the callback is a key of the registry: the
    invocation is final, for the text of the payload, on a session with a
    speaker model. *)
Theorem callback_speaker_registered self load s name f :
  In (s, Some name, f) (callbacks (trace (checkCallback self load))) ->
  f = true /\ load_text load = Some s /\ spkModel self <> None /\
  In name (map fst (speakSigs self)).
Proof.
  intros Hin. destruct (load_text load) as [t|] eqn:Htext.
  - rewrite (callbacks_final self load t Htext) in Hin.
    destruct (_ && _); [|destruct Hin].
    destruct (spkModel self) as [path|]; [|destruct Hin as [[=] | []]].
    destruct (outcome (speakerCheck self load)) as [sp|e] eqn:Hout; [|destruct Hin].
    destruct Hin as [[= <- -> <-] | []].
    split; [reflexivity|]. split; [reflexivity|]. split; [discriminate|].
    destruct (load_spk load) as [spk|] eqn:Hspk;
      [|unfold speakerCheck in Hout; rewrite Hspk in Hout; discriminate].
    destruct (speakerCheck_below_double self load spk name Hspk Hout)
      as (d & (before & after & Hds & _) & _).
    assert (Hd : In (name, d) (distances (speakSigs self) spk))
      by (rewrite Hds; apply in_or_app; right; left; reflexivity).
    unfold distances in Hd. apply in_map_iff in Hd.
    destruct Hd as (entry & [= <- _] & Hentry). apply in_map. exact Hentry.
  - rewrite (checkCallback_partial self load Htext) in Hin.
    destruct (load_partial load) as [t|]; [|destruct Hin].
    destruct (_ && _); [destruct Hin as [[=] | []] | destruct Hin].
Qed.

Lemma callback_speaker_registered_witness :
  true = true /\
  load_text (payload (Final "hello" (Some [0.99; 0.01; 0]%float))) = Some "hello" /\
  spkModel (speaker_session alice_bob 0.1%float) <> None /\
  In "Alice" (map fst (speakSigs (speaker_session alice_bob 0.1%float))).
Proof.
  apply (callback_speaker_registered (speaker_session alice_bob 0.1%float)
           (payload (Final "hello" (Some [0.99; 0.01; 0]%float))) "hello" "Alice" true).
  vm_compute. left. reflexivity.
Defined.

Lemma inb_app s l1 l2 : inb s (l1 ++ l2) = inb s l1 || inb s l2.
Proof. unfold inb. apply existsb_app. Qed.

(** X11. [addFilterWords] only suppresses: for every payload, the
    dispatcher of the session with the added words either does exactly
    what it did before, or does nothing at all (no callback, no matcher
    run, no exception). *)
Theorem addFilterWords_only_suppresses self words load :
  checkCallback (addFilterWords self words) load = checkCallback self load \/
  checkCallback (addFilterWords self words) load = ret tt.
Proof.
  unfold checkCallback, addFilterWords.
  cbn [filterText textFilters partial spkModel set_textFilters].
  rewrite speakerCheck_set_textFilters.
  destruct (load_text load) as [s|].
  - destruct (Nat.ltb 0 (String.length s)); [|left; reflexivity].
    rewrite inb_app.
    destruct (filterText self), (inb s (textFilters self)), (inb s words); simpl;
      auto.
  - destruct (load_partial load) as [s|]; [|left; reflexivity].
    destruct (partial self); [|left; reflexivity].
    destruct (Nat.ltb 0 (String.length s)); [|left; reflexivity].
    rewrite inb_app.
    destruct (filterText self), (inb s (textFilters self)), (inb s words); simpl;
      auto.
Qed.

(** X12. The filter list acts as a set: two lists with the same elements
    give the same dispatcher, so the order in which words were added and
    their repetitions do not matter. *)
Theorem filter_list_is_a_set self l1 l2 load :
  (forall s, In s l1 <-> In s l2) ->
  checkCallback (set_textFilters l1 self) load
  = checkCallback (set_textFilters l2 self) load.
Proof.
  intros Hsame.
  assert (E : forall s, inb s l1 = inb s l2).
  { intros s. destruct (inb s l1) eqn:E1, (inb s l2) eqn:E2; try reflexivity.
    - apply inb_In, Hsame, inb_In in E1. congruence.
    - apply inb_In, Hsame, inb_In in E2. congruence. }
  unfold checkCallback.
  cbn [filterText textFilters partial spkModel set_textFilters].
  rewrite !speakerCheck_set_textFilters.
  destruct (load_text load) as [s|].
  - rewrite (E s). reflexivity.
  - destruct (load_partial load) as [s|]; [|reflexivity]. rewrite (E s). reflexivity.
Qed.

Lemma filter_list_is_a_set_witness :
  checkCallback (addFilterWords (addFilterWords (init default_args) ["echo"]) ["um"])
                (payload (Final "um" None))
  = checkCallback (addFilterWords (addFilterWords (init default_args) ["um"; "um"])
                                  ["echo"])
                  (payload (Final "um" None)).
Proof.
  apply (filter_list_is_a_set (init default_args)
           ((["huh"; "by"; "but"] ++ ["echo"]) ++ ["um"])
           ((["huh"; "by"; "but"] ++ ["um"; "um"]) ++ ["echo"])
           (payload (Final "um" None))).
  intros s. simpl. tauto.
Defined.

End DispatcherMore.

(** ** The capture callback and the recognition loop *)

Section Loop.

(** X13. The capture callback never drops a block: after any run of it
    the queue holds the frames it had followed by every block received,
    in order, whatever the status flags and [verbose]; and what it prints
    is the flagged statuses, in order, when [verbose] is set, nothing
    otherwise. *)
Theorem capture_enqueues_every_block self blocks :
  forall q,
    capture self q blocks =
    (if verbose self then filter flagged (map snd blocks) else [],
     q ++ map fst blocks).
Proof.
  induction blocks as [|[indata status] rest IH]; intros q; simpl.
  - rewrite app_nil_r. destruct (verbose self); reflexivity.
  - rewrite IH. unfold put. rewrite <- app_assoc. simpl.
    destruct (verbose self), (flagged status); reflexivity.
Qed.

Lemma bind_ret_l {A B} (a : A) (k : A -> M B) : bind (ret a) k = k a.
Proof. unfold bind, ret. destruct (k a). reflexivity. Qed.

Lemma bind_assoc {A B C} (m : M A) (k : A -> M B) (h : B -> M C) :
  bind (bind m k) h = bind m (fun a => bind (k a) h).
Proof.
  destruct m as [t [a|e]]; simpl; [|reflexivity].
  destruct (k a) as [t1 [b|e]]; simpl; [|reflexivity].
  destruct (h b) as [t2 r]. now rewrite app_assoc.
Qed.

Lemma bind_ext {A B} (m : M A) (k1 k2 : A -> M B) :
  (forall a, k1 a = k2 a) -> bind m k1 = bind m k2.
Proof.
  intros H. destruct m as [t [a|e]]; simpl; [now rewrite H | reflexivity].
Qed.

(** One turn of the loop invokes the callback as the dispatcher does on
    the payload the recognizer gives. *)
Lemma callbacks_loopBody self R st data :
  callbacks (trace (loopBody self R st data)) =
  callbacks (trace (checkCallback self
    (if snd (AcceptWaveform R st data)
     then snd (Result R (fst (AcceptWaveform R st data)))
     else snd (PartialResult R (fst (AcceptWaveform R st data)))))).
Proof.
  unfold loopBody. destruct (AcceptWaveform R st data) as [st1 ended]. simpl.
  destruct ended.
  - destruct (Result R st1) as [st2 load]. simpl. rewrite callbacks_bind.
    destruct (outcome (checkCallback self load)); simpl;
      [now rewrite app_nil_r | reflexivity].
  - destruct (PartialResult R st1) as [st2 load]. simpl. rewrite callbacks_bind.
    destruct (outcome (checkCallback self load)); simpl;
      [now rewrite app_nil_r | reflexivity].
Qed.

(** One turn of the loop ends as the dispatcher does, and leaves the
    recognizer in the state its result query returned. *)
Lemma outcome_loopBody self R st data :
  outcome (loopBody self R st data) =
  let st1 := fst (AcceptWaveform R st data) in
  if snd (AcceptWaveform R st data)
  then match outcome (checkCallback self (snd (Result R st1))) with
       | Ok _ => Ok (fst (Result R st1))
       | Raise e => Raise e
       end
  else match outcome (checkCallback self (snd (PartialResult R st1))) with
       | Ok _ => Ok (fst (PartialResult R st1))
       | Raise e => Raise e
       end.
Proof.
  unfold loopBody. destruct (AcceptWaveform R st data) as [st1 ended]. simpl.
  destruct ended.
  - destruct (Result R st1) as [st2 load]. simpl. rewrite outcome_bind.
    destruct (outcome (checkCallback self load)); reflexivity.
  - destruct (PartialResult R st1) as [st2 load]. simpl. rewrite outcome_bind.
    destruct (outcome (checkCallback self load)); reflexivity.
Qed.

Lemma callbacks_checkCallback_le1 self load :
  List.length (callbacks (trace (checkCallback self load))) <= 1.
Proof.
  destruct (load_text load) as [s|] eqn:Htext.
  - rewrite (callbacks_final self load s Htext).
    destruct (_ && _); simpl; [|lia].
    destruct (spkModel self); [destruct (outcome (speakerCheck self load))|];
      simpl; lia.
  - rewrite (checkCallback_partial self load Htext).
    destruct (load_partial load) as [s|]; simpl; [|lia].
    destruct (_ && _); simpl; lia.
Qed.

Lemma runLoop_cons self R st data q :
  running self = true ->
  runLoop self R st (data :: q) =
  bind (loopBody self R st data) (fun st' => runLoop self R st' q).
Proof. intros Hrun. simpl. rewrite Hrun. reflexivity. Qed.

Lemma runLoop_nil self R st :
  running self = true -> runLoop self R st [] = ret (Waiting, st, []).
Proof. intros Hrun. simpl. rewrite Hrun. reflexivity. Qed.

(** X14. The loop is incremental: on a running session, processing the
    frames [q1 ++ q2] is processing [q1] and then, unless that raised,
    processing [q2] from the recognizer state reached; events come in
    that order. *)
Theorem runLoop_app self R q1 q2 :
  running self = true ->
  forall st,
    runLoop self R st (q1 ++ q2) =
    bind (runLoop self R st q1) (fun r => runLoop self R (snd (fst r)) q2).
Proof.
  intros Hrun. induction q1 as [|data q1 IH]; intros st.
  - rewrite (runLoop_nil _ _ _ Hrun), bind_ret_l. reflexivity.
  - simpl app. rewrite !(runLoop_cons _ _ _ _ _ Hrun), bind_assoc.
    apply bind_ext. intros st'. apply IH.
Qed.

Lemma runLoop_app_witness :
  runLoop (set_running true (text_session true true)) toy_recognizer 0
          ([block; []] ++ [block])
  = bind (runLoop (set_running true (text_session true true)) toy_recognizer 0
                  [block; []])
         (fun r => runLoop (set_running true (text_session true true)) toy_recognizer
                           (snd (fst r)) [block]).
Proof.
  apply (runLoop_app (set_running true (text_session true true)) toy_recognizer
           [block; []] [block]).
  reflexivity.
Defined.

(** What the scenario above does: a partial, a final, a partial. *)
Example toy_run :
  runLoop (set_running true (text_session true true)) toy_recognizer 0
          [block; []; block]
  = ([Callback "hel" None false; Callback "hello" None true;
      Callback "hel" None false],
     Ok (Waiting, 3, [])).
Proof. reflexivity. Qed.

(** X15. The loop invokes the callback at most once per frame it takes
    from the queue, for every recognizer. *)
Theorem one_callback_per_frame self R q :
  forall st,
    List.length (callbacks (trace (runLoop self R st q))) <= List.length q.
Proof.
  destruct (running self) eqn:Hrun.
  - induction q as [|data q IH]; intros st.
    + rewrite (runLoop_nil _ _ _ Hrun). simpl. lia.
    + rewrite (runLoop_cons _ _ _ _ _ Hrun), callbacks_bind, callbacks_loopBody.
      pose proof (callbacks_checkCallback_le1 self
        (if snd (AcceptWaveform R st data)
         then snd (Result R (fst (AcceptWaveform R st data)))
         else snd (PartialResult R (fst (AcceptWaveform R st data))))) as Hone.
      destruct (outcome (loopBody self R st data)) as [st'|e].
      * rewrite length_app. specialize (IH st'). simpl. lia.
      * simpl. lia.
  - intros st. destruct q; simpl; rewrite Hrun; simpl; lia.
Qed.

(** X16. An exception ends the loop: when processing the frames [q1]
    raises, the frames after them are never processed, the run over
    [q1 ++ q2] is the run over [q1]. *)
Theorem exception_ends_loop self R q1 q2 e :
  forall st,
    outcome (runLoop self R st q1) = Raise e ->
    runLoop self R st (q1 ++ q2) = runLoop self R st q1.
Proof.
  destruct (running self) eqn:Hrun.
  - induction q1 as [|data q1 IH]; intros st Hraise.
    + rewrite (runLoop_nil _ _ _ Hrun) in Hraise. discriminate.
    + simpl app. rewrite !(runLoop_cons _ _ _ _ _ Hrun) in *.
      rewrite outcome_bind in Hraise.
      destruct (loopBody self R st data) as [t [st'|e']]; simpl in *; [|reflexivity].
      rewrite (IH st' Hraise). reflexivity.
  - intros st Hraise. destruct q1; simpl in Hraise; rewrite Hrun in Hraise;
      discriminate.
Qed.

Lemma exception_ends_loop_witness :
  runLoop (set_running true (speaker_session alice 0.54%float))
          toy_speaker_recognizer 0 ([block; []] ++ [[]; block])
  = runLoop (set_running true (speaker_session alice 0.54%float))
            toy_speaker_recognizer 0 [block; []].
Proof.
  apply (exception_ends_loop (set_running true (speaker_session alice 0.54%float))
           toy_speaker_recognizer [block; []] [[]; block] ValueError 0).
  vm_compute. reflexivity.
Defined.




(** X18. With [partial] disabled, and a recognizer whose partial
    results carry no ["text"], the loop invokes the callback at most once
    per utterance the recognizer reports, and only with [isFull] true. *)
Theorem partial_off_one_callback_per_utterance self R q :
  partial self = false ->
  (forall st, load_text (snd (PartialResult R st)) = None) ->
  forall st,
    List.length (callbacks (trace (runLoop self R st q))) <= utterances R st q /\
    Forall (fun c => snd c = true) (callbacks (trace (runLoop self R st q))).
Proof.
  intros Hoff Hpartial. destruct (running self) eqn:Hrun.
  - induction q as [|data q IH]; intros st.
    + rewrite (runLoop_nil _ _ _ Hrun). simpl. split; [lia | constructor].
    + rewrite (runLoop_cons _ _ _ _ _ Hrun), callbacks_bind, callbacks_loopBody,
        outcome_loopBody. simpl.
      destruct (AcceptWaveform R st data) as [st1 ended]. simpl. destruct ended.
      * pose proof (callbacks_checkCallback_le1 self (snd (Result R st1))) as Hone.
        assert (Hfull : Forall (fun c => snd c = true)
                          (callbacks (trace (checkCallback self (snd (Result R st1)))))).
        { destruct (load_text (snd (Result R st1))) as [s|] eqn:Htext.
          - rewrite (callbacks_final _ _ _ Htext).
            destruct (_ && _); [|constructor].
            destruct (spkModel self);
              [destruct (outcome (speakerCheck self (snd (Result R st1))))|];
              repeat constructor.
          - rewrite (checkCallback_partial _ _ Htext), Hoff.
            destruct (load_partial (snd (Result R st1))); constructor. }
        destruct (outcome (checkCallback self (snd (Result R st1)))).
        -- destruct (IH (fst (Result R st1))) as [Hlen Hall].
           rewrite length_app. split; [lia | apply Forall_app; auto].
        -- split; [lia | exact Hfull].
      * rewrite (checkCallback_partial _ _ (Hpartial st1)), Hoff.
        destruct (load_partial (snd (PartialResult R st1))); simpl; apply IH.
  - intros st. destruct q; simpl; rewrite Hrun; simpl; split; try lia; constructor.
Qed.

Lemma partial_off_one_callback_per_utterance_witness :
  List.length (callbacks (trace (runLoop (set_running true (text_session false true))
                                         toy_recognizer 0 [block; []; block; []])))
  <= utterances toy_recognizer 0 [block; []; block; []] /\
  Forall (fun c => snd c = true)
         (callbacks (trace (runLoop (set_running true (text_session false true))
                                    toy_recognizer 0 [block; []; block; []]))).
Proof.
  apply (partial_off_one_callback_per_utterance
           (set_running true (text_session false true)) toy_recognizer
           [block; []; block; []]).
  - reflexivity.
  - intros st. reflexivity.
Defined.

(** X19. The line the example callback prints always tells a final
    result from a partial one, but not a speaker from a text: a result
    with speaker [name] and text [t] prints as the result without speaker
    whose text is [name ++ ": " ++ t]. *)
Theorem simpleCallback_label text speaker text' speaker' name isFull :
  simpleCallback text speaker true <> simpleCallback text' speaker' false /\
  simpleCallback text (Some name) isFull
  = simpleCallback (name ++ ": " ++ text) None isFull.
Proof.
  split; [|reflexivity].
  unfold simpleCallback, LF. destruct speaker, speaker'; simpl; discriminate.
Qed.

End Loop.
